(** * Chat server (server.py): session registry, channels and routing

    A shallow embedding of [Chat_app/server.py].  The two global
    dictionaries [clients] and [channels] become finite maps, a socket is
    an opaque identity, and every [sendall] call is recorded in program
    order.  Each [with lock:] block of the source is one uninterrupted
    piece of the model; the thread system at the end of the file
    interleaves these pieces. *)

From Stdlib Require Import Ascii String.
From stdpp Require Import base strings list gmap sets.

(** ** Text

    Python [str] values are modelled as [string]; every character stands
    for the code point of the same number (so the model covers text whose
    code points are below 256). *)

Module Text.

Definition nl : string := String (Ascii.ascii_of_nat 10) "".

(** [str.isspace] on one character, for code points below 256:
    TAB..CR, FS..US, SPACE, NEL (0x85) and NBSP (0xA0). *)
Definition isspace (a : ascii) : bool :=
  let n := Ascii.nat_of_ascii a in
  (Nat.leb 9 n && Nat.leb n 13) || (Nat.leb 28 n && Nat.leb n 32)
  || Nat.eqb n 133 || Nat.eqb n 160.

Definition is_empty (s : string) : bool :=
  match s with "" => true | String _ _ => false end.

Fixpoint lstrip (s : string) : string :=
  match s with
  | "" => ""
  | String a s' => if isspace a then lstrip s' else s
  end.

Fixpoint rstrip (s : string) : string :=
  match s with
  | "" => ""
  | String a s' =>
      let r := rstrip s' in
      if isspace a && is_empty r then "" else String a r
  end.

(** [s.strip()] *)
Definition strip (s : string) : string := rstrip (lstrip s).

(** [s.startswith(p)] *)
Fixpoint startswith (p s : string) : bool :=
  match p with
  | "" => true
  | String a p' =>
      match s with
      | "" => false
      | String b s' => Ascii.eqb a b && startswith p' s'
      end
  end.

(** First occurrence of a space: the text before it and the text after. *)
Fixpoint partition_space (s : string) : option (string * string) :=
  match s with
  | "" => None
  | String a s' =>
      if Ascii.eqb a " "%char then Some ("", s')
      else match partition_space s' with
           | Some (pre, post) => Some (String a pre, post)
           | None => None
           end
  end.

(** [s.split(" ", maxsplit)] *)
Fixpoint split_space (maxsplit : nat) (s : string) : list string :=
  match maxsplit with
  | 0 => [s]
  | S k =>
      match partition_space s with
      | Some (pre, post) => pre :: split_space k post
      | None => [s]
      end
  end.

End Text.

Import Text.

(** ** Shared state and effects *)

(** A socket object; two sockets are the same object iff the numbers agree. *)
Definition handle := nat.

(** The module globals [clients] and [channels], the [sendall] calls made
    so far (socket and text, oldest first), and the sockets on which
    [sendall] currently raises. *)
Record world := World {
  clients : gmap string handle;
  channels : gmap string (gset string);
  outbox : list (handle * string);
  broken : gset handle
}.

Definition set_clients (f : gmap string handle → gmap string handle) (w : world) : world :=
  World (f (clients w)) (channels w) (outbox w) (broken w).

Definition set_channels
    (f : gmap string (gset string) → gmap string (gset string)) (w : world) : world :=
  World (clients w) (f (channels w)) (outbox w) (broken w).

Definition record_send (sock : handle) (text : string) (w : world) : world :=
  World (clients w) (channels w) (outbox w ++ [(sock, text)]) (broken w).

(** A statement either completes with a value or raises; the world it
    leaves behind is kept in both cases. *)
Inductive outcome (A : Type) : Type :=
| Normal (a : A)
| Raised.
Arguments Normal {A} a.
Arguments Raised {A}.

Definition M (A : Type) : Type := world → outcome A * world.

Definition ret {A} (a : A) : M A := λ w, (Normal a, w).

Definition bind {A B} (m : M A) (k : A → M B) : M B := λ w,
  match m w with
  | (Normal a, w') => k a w'
  | (Raised, w') => (Raised, w')
  end.

Definition raise {A} : M A := λ w, (Raised, w).

Definition get : M world := λ w, (Normal w, w).

Definition modify (f : world → world) : M unit := λ w, (Normal (), f w).

(** [try: m / except: pass] *)
Definition try_pass (m : M unit) : M unit := λ w, (Normal (), (m w).2).

Notation "'let*' x := m 'in' k" := (bind m (λ x, k))
  (at level 10, x binder, m at level 100, k at level 200).
Notation "m ;; k" := (bind m (λ _, k))
  (at level 100, k at level 200, right associativity).

Fixpoint for_each {A} (l : list A) (body : A → M unit) : M unit :=
  match l with
  | [] => ret ()
  | x :: l' => body x ;; for_each l' body
  end.

(** [sock.sendall(text.encode())] *)
Definition sendall (sock : handle) (text : string) : M unit := λ w,
  let w' := record_send sock text w in
  if decide (sock ∈ broken w) then (Raised, w') else (Normal (), w').

(** ** Router *)

Definition channel_line (channel_name sender_nick message : string) : string :=
  "[Channel " +:+ channel_name +:+ "] " +:+ sender_nick +:+ ": " +:+ message +:+ nl.

Definition private_line (sender_nick message : string) : string :=
  "[Private] " +:+ sender_nick +:+ ": " +:+ message +:+ nl.

Definition not_found_line (target_nick : string) : string :=
  "User '" +:+ target_nick +:+ "' not found." +:+ nl.

(** The body of the [for] loop of [broadcast_channel_message]. *)
Definition broadcast_to (sender_nick channel_name message nickname : string) : M unit :=
  let* w := get in
  match clients w !! nickname with
  | Some sock =>
      if bool_decide (nickname ≠ sender_nick)
      then try_pass (sendall sock (channel_line channel_name sender_nick message))
      else ret ()
  | None => ret ()
  end.

(** The members are visited in the order of [elements]; the source
    iterates over a Python set, whose order is unspecified. *)
Definition broadcast_channel_message (sender_nick channel_name message : string) : M unit :=
  let* w := get in
  match channels w !! channel_name with
  | None => ret ()
  | Some members =>
      for_each (elements members) (broadcast_to sender_nick channel_name message)
  end.

Definition private_message (sender_nick target_nick message : string) : M unit :=
  let* w := get in
  match clients w !! target_nick with
  | None =>
      match clients w !! sender_nick with
      | Some sock => sendall sock (not_found_line target_nick)
      | None => ret ()
      end
  | Some sock => try_pass (sendall sock (private_line sender_nick message))
  end.

(** ** Session loop *)

(** What one [recv(1024)] followed by [decode()] gives the loop. *)
Inductive recv_event : Type :=
| RecvText (data : string)  (* bytes that decode to [data]; [""] is a zero-length read *)
| RecvUndecodable           (* non-empty bytes that are not UTF-8: [decode] raises *)
| RecvReset                 (* [recv] raised [ConnectionResetError] *)
| RecvError.                (* [recv] raised any other exception *)

(** How one pass through the loop body ends.  [Broadcast] is the call of
    [broadcast_channel_message] that closes the [/send] branch: it is made
    after the lock of the membership check has been released. *)
Inductive tail : Type :=
| Continue
| Break
| Broadcast (sender_nick channel_name message : string).

(** The local variable [nickname] is [None] or a string; [as_nick] is its
    truth value together with the string when it is true. *)
Definition as_nick (nickname : option string) : option string :=
  match nickname with
  | Some n => if is_empty n then None else Some n
  | None => None
  end.

Definition taken_line : string := "Nickname already taken. Try another one." +:+ nl.
Definition nick_set_line (nickname : string) : string :=
  "Nickname set to '" +:+ nickname +:+ "'." +:+ nl.
Definition joined_line (channel_name : string) : string :=
  "You have joined channel '" +:+ channel_name +:+ "'." +:+ nl.
Definition must_join_line (channel_name : string) : string :=
  "You must join channel '" +:+ channel_name +:+ "' before sending messages there." +:+ nl.
Definition unknown_line : string :=
  "Unknown command. Try /nick, /join, /send, /pm, or /quit." +:+ nl.

(** [del clients[nickname]] and the removal from every channel. *)
Definition remove_session (nickname : string) (w : world) : world :=
  set_channels (fmap (λ ch : gset string, ch ∖ {[nickname]}))
    (set_clients (delete nickname) w).

(** [if nickname and nickname in clients: ...] as it occurs in the rename
    and in the final cleanup. *)
Definition drop_old (nickname : option string) : M unit :=
  let* w := get in
  match as_nick nickname with
  | Some old =>
      if decide (old ∈ dom (clients w)) then modify (remove_session old) else ret ()
  | None => ret ()
  end.

(** The [with lock:] block of [/nick]. *)
Definition nick_locked (sock : handle) (nickname : option string) (desired_nick : string)
    : M (option string * tail) :=
  let* w := get in
  if decide (desired_nick ∈ dom (clients w)) then
    sendall sock taken_line ;; ret (nickname, Continue)
  else
    drop_old nickname ;;
    modify (set_clients (insert desired_nick sock)) ;;
    sendall sock (nick_set_line desired_nick) ;;
    ret (Some desired_nick, Continue).

(** The [with lock:] block of [/join]. *)
Definition join_locked (nickname channel_name : string) : M unit :=
  let* w := get in
  (if decide (channel_name ∈ dom (channels w)) then ret ()
   else modify (set_channels (insert channel_name ∅))) ;;
  modify (set_channels (alter (λ ch : gset string, ch ∪ {[nickname]}) channel_name)).

(** The [with lock:] block of [/send]: the membership check. *)
Definition send_locked (sock : handle) (nickname channel_name msg : string) : M tail :=
  let* w := get in
  match channels w !! channel_name with
  | Some members =>
      if decide (nickname ∈ members) then ret (Broadcast nickname channel_name msg)
      else sendall sock (must_join_line channel_name) ;; ret Continue
  | None => sendall sock (must_join_line channel_name) ;; ret Continue
  end.

(** The command dispatch on the stripped, non-empty [message]. *)
Definition command (sock : handle) (nickname : option string) (message : string)
    : M (option string * tail) :=
  if startswith "/nick " message then
    match split_space 1 message !! 1 with
    | None => raise
    | Some arg =>
        let desired_nick := strip arg in
        if is_empty desired_nick then
          sendall sock ("Nickname cannot be empty." +:+ nl) ;; ret (nickname, Continue)
        else nick_locked sock nickname desired_nick
    end
  else if startswith "/join " message then
    match split_space 1 message !! 1 with
    | None => raise
    | Some arg =>
        let channel_name := strip arg in
        if is_empty channel_name then
          sendall sock ("Channel name cannot be empty." +:+ nl) ;; ret (nickname, Continue)
        else
          match as_nick nickname with
          | None =>
              sendall sock ("You must set a nickname before joining channels." +:+ nl) ;;
              ret (nickname, Continue)
          | Some n =>
              join_locked n channel_name ;;
              sendall sock (joined_line channel_name) ;;
              ret (nickname, Continue)
          end
    end
  else if startswith "/send " message then
    match split_space 2 message with
    | [_; channel_name; msg] =>
        match as_nick nickname with
        | None =>
            sendall sock ("You must set a nickname before sending messages." +:+ nl) ;;
            ret (nickname, Continue)
        | Some n =>
            let* t := send_locked sock n channel_name msg in ret (nickname, t)
        end
    | _ => sendall sock ("Usage: /send <channel> <message>" +:+ nl) ;; ret (nickname, Continue)
    end
  else if startswith "/pm " message then
    match split_space 2 message with
    | [_; target_nick; msg] =>
        match as_nick nickname with
        | None =>
            sendall sock ("You must set a nickname before sending private messages." +:+ nl) ;;
            ret (nickname, Continue)
        | Some n => private_message n target_nick msg ;; ret (nickname, Continue)
        end
    | _ => sendall sock ("Usage: /pm <nick> <message>" +:+ nl) ;; ret (nickname, Continue)
    end
  else if String.eqb message "/quit" then
    sendall sock ("Disconnecting..." +:+ nl) ;; ret (nickname, Break)
  else
    sendall sock unknown_line ;; ret (nickname, Continue).

(** One pass through the [while True:] body up to the end of the command
    dispatch. *)
Definition receive (sock : handle) (nickname : option string) (ev : recv_event)
    : M (option string * tail) :=
  match ev with
  | RecvError => raise
  | RecvReset => ret (nickname, Break)
  | RecvUndecodable => raise
  | RecvText data =>
      if is_empty data then ret (nickname, Break)
      else
        let message := strip data in
        if is_empty message then ret (nickname, Continue)
        else command sock nickname message
  end.

(** The rest of the pass: the pending broadcast, if there is one. *)
Definition finish (t : tail) : M bool :=
  match t with
  | Continue => ret true
  | Break => ret false
  | Broadcast sender_nick channel_name message =>
      broadcast_channel_message sender_nick channel_name message ;; ret true
  end.

(** One full pass; the boolean tells whether the loop goes on. *)
Definition iteration (sock : handle) (nickname : option string) (ev : recv_event)
    : M (option string * bool) :=
  let* r := receive sock nickname ev in
  let* go := finish r.2 in
  ret (r.1, go).

(** The code after the loop: the locked cleanup ([close] and [print] touch
    nothing the model tracks). *)
Definition cleanup (nickname : option string) : M unit := drop_old nickname.

Definition welcome (sock : handle) : M unit :=
  sendall sock ("Welcome to the chat server!" +:+ nl) ;;
  sendall sock ("Use '/nick <yourNickname>' to set your nickname." +:+ nl) ;;
  sendall sock ("Use '/join <channel>' to join a channel." +:+ nl) ;;
  sendall sock ("Use '/send <channel> <message>' to send a message to a channel." +:+ nl) ;;
  sendall sock ("Use '/pm <nick> <message>' to send a private message." +:+ nl) ;;
  sendall sock ("Use '/quit' to disconnect." +:+ nl +:+ nl).

(** ** Threads

    One thread per accepted connection, keyed by its socket.  A step of the
    system is what one thread does between two points where another thread
    can get the lock: at most one [with lock:] block, together with the
    lock-free statements around it (which touch only the thread's own
    socket and local variables). *)

Inductive pc : Type :=
| AtRecv                                              (* blocked in [recv] *)
| AtBroadcast (sender_nick channel_name message : string)
                                                      (* [/send] check passed, lock released *)
| Closed                                              (* loop left, cleanup done *)
| Crashed.                                            (* an exception ended the thread *)

Record thread := Thread {
  nickname : option string;
  at_pc : pc
}.

Record system := System {
  shared : world;
  threads : gmap handle thread
}.

Inductive action : Type :=
| Accept (sock : handle)                    (* a new connection and its thread *)
| Recv (sock : handle) (ev : recv_event)    (* [recv] returns or raises in the thread of [sock] *)
| Resume (sock : handle)                    (* the thread of [sock] gets the lock for its broadcast *)
| Fail (sock : handle).                     (* from now on [sendall] raises on [sock] *)

Definition set_broken (f : gset handle → gset handle) (w : world) : world :=
  World (clients w) (channels w) (outbox w) (f (broken w)).

Definition after_receive (nickname : option string) (r : outcome (option string * tail) * world)
    : thread * world :=
  match r with
  | (Normal (nickname', Continue), w) => (Thread nickname' AtRecv, w)
  | (Normal (nickname', Broadcast a c m), w) => (Thread nickname' (AtBroadcast a c m), w)
  | (Normal (nickname', Break), w) =>
      match cleanup nickname' w with
      | (Normal _, w') => (Thread nickname' Closed, w')
      | (Raised, w') => (Thread nickname' Crashed, w')
      end
  | (Raised, w) => (Thread nickname Crashed, w)
  end.

Definition step (a : action) (s : system) : option system :=
  match a with
  | Accept sock =>
      match threads s !! sock with
      | Some _ => None
      | None =>
          match welcome sock (shared s) with
          | (Normal _, w) => Some (System w (<[sock := Thread None AtRecv]> (threads s)))
          | (Raised, w) => Some (System w (<[sock := Thread None Crashed]> (threads s)))
          end
      end
  | Recv sock ev =>
      match threads s !! sock with
      | Some (Thread nickname AtRecv) =>
          let (t, w) := after_receive nickname (receive sock nickname ev (shared s)) in
          Some (System w (<[sock := t]> (threads s)))
      | _ => None
      end
  | Resume sock =>
      match threads s !! sock with
      | Some (Thread nickname (AtBroadcast a c m)) =>
          match broadcast_channel_message a c m (shared s) with
          | (Normal _, w) => Some (System w (<[sock := Thread nickname AtRecv]> (threads s)))
          | (Raised, w) => Some (System w (<[sock := Thread nickname Crashed]> (threads s)))
          end
      | _ => None
      end
  | Fail sock => Some (System (set_broken (union {[sock]}) (shared s)) (threads s))
  end.

(** A whole command of one thread with nothing of another thread in
    between: the pass through the loop body and, for [/send], the broadcast
    right after the check. *)
Definition exec (sock : handle) (ev : recv_event) (s : system) : option system :=
  match step (Recv sock ev) s with
  | Some s' =>
      match threads s' !! sock with
      | Some (Thread _ (AtBroadcast _ _ _)) => step (Resume sock) s'
      | _ => Some s'
      end
  | None => None
  end.

Definition init : system := System (World ∅ ∅ [] ∅) ∅.

Fixpoint run (tr : list action) (s : system) : option system :=
  match tr with
  | [] => Some s
  | a :: tr' =>
      match step a s with
      | Some s' => run tr' s'
      | None => None
      end
  end.

Definition line (text : string) : recv_event := RecvText (text +:+ nl).

(** ** The router as the specification words it *)

(** [membersExcluding(channel, nickname)]: the members of the channel
    other than [nickname]. *)
Definition membersExcluding (w : world) (channel_name nickname : string) : list string :=
  filter (λ n, n ≠ nickname) (elements (default ∅ (channels w !! channel_name))).

(** The formatted line addressed to the handle of [nickname], if it has one. *)
Definition delivery (sender_nick channel_name message : string) (w : world)
    (nickname : string) : option (handle * string) :=
  (λ sock, (sock, channel_line channel_name sender_nick message)) <$> clients w !! nickname.

(** One formatted line for each of these members that has a handle. *)
Definition deliveries (w : world) (sender_nick channel_name message : string)
    : list (handle * string) :=
  omap (delivery sender_nick channel_name message w)
       (membersExcluding w channel_name sender_nick).

(** The registries of a world: what the lock protects. *)
Definition registries (w : world) : gmap string handle * gmap string (gset string) :=
  (clients w, channels w).

(** ** Invariants, reachability and sample states *)

Definition lobby_world : world :=
  World (<["alice" := 1]> (<["bob" := 2]> ∅)) (<["lobby" := {["alice"; "bob"]}]> ∅) [] ∅.

(** The state after one connection, socket 1, has claimed "alice". *)
Definition alice_registered : system :=
  default init (run [Accept 1; Recv 1 (line "/nick alice")] init).

(** What the locked part of [/join] does to the channel registry. *)
Definition join (nickname channel_name : string) (chs : gmap string (gset string))
    : gmap string (gset string) :=
  <[channel_name := default ∅ (chs !! channel_name) ∪ {[nickname]}]> chs.

(** The world after the locked removal of the old nickname. *)
Definition dropped (nickname : option string) (w : world) : world :=
  (drop_old nickname w).2.

(** The four shapes of a pass up to the end of the dispatch: nothing but
    sends; a successful [/nick]; a [/join]; a [/send] that passed its check. *)
Inductive receive_effect (sock : handle) (nickname : option string) (w : world)
    : outcome (option string * tail) * world → Prop :=
| eff_none o w' :
    registries w' = registries w →
    o = Raised ∨ o = Normal (nickname, Continue) ∨ o = Normal (nickname, Break) →
    receive_effect sock nickname w (o, w')
| eff_nick n o w' :
    n ≠ "" →
    n ∉ dom (clients w) →
    registries w' =
      (<[n := sock]> (clients (dropped nickname w)), channels (dropped nickname w)) →
    o = Raised ∨ o = Normal (Some n, Continue) →
    receive_effect sock nickname w (o, w')
| eff_join n c o w' :
    as_nick nickname = Some n →
    registries w' = (clients w, join n c (channels w)) →
    o = Raised ∨ o = Normal (nickname, Continue) →
    receive_effect sock nickname w (o, w')
| eff_send n c m members :
    as_nick nickname = Some n →
    channels w !! c = Some members →
    n ∈ members →
    receive_effect sock nickname w (Normal (nickname, Broadcast n c m), w).

Definition is_live (p : pc) : bool :=
  match p with
  | AtRecv | AtBroadcast _ _ _ => true
  | Closed | Crashed => false
  end.

(** Every name in a member set is a key of [clients]. *)
Definition members_registered (w : world) : Prop :=
  ∀ c members n, channels w !! c = Some members → n ∈ members → n ∈ dom (clients w).

(** A running thread that has a nickname is registered under it with its
    own socket. *)
Definition holds_nick (s : system) : Prop :=
  ∀ sock t n, threads s !! sock = Some t → is_live (at_pc t) = true →
    as_nick (nickname t) = Some n → clients (shared s) !! n = Some sock.

(** A thread between its [/send] check and its broadcast sends under its
    own nickname and is a member of the channel. *)
Definition pending_member (s : system) : Prop :=
  ∀ sock t a c m, threads s !! sock = Some t → at_pc t = AtBroadcast a c m →
    as_nick (nickname t) = Some a ∧
    ∃ members, channels (shared s) !! c = Some members ∧ a ∈ members.

(** A registered name belongs to the thread of its socket; while that
    thread runs, the name is its nickname. *)
Definition owned (s : system) : Prop :=
  ∀ n sock, clients (shared s) !! n = Some sock →
    ∃ t, threads s !! sock = Some t ∧
         (is_live (at_pc t) = true → as_nick (nickname t) = Some n).

(** No socket is registered under two names. *)
Definition one_name_per_socket (w : world) : Prop :=
  ∀ n1 n2 sock, clients w !! n1 = Some sock → clients w !! n2 = Some sock → n1 = n2.

Record consistent (s : system) : Prop := Consistent {
  cons_holds : holds_nick s;
  cons_members : members_registered (shared s);
  cons_pending : pending_member s;
  cons_owned : owned s;
  cons_inj : one_name_per_socket (shared s)
}.

(** States reached from the empty server by any interleaving of steps. *)
Inductive reachable : system → Prop :=
| reachable_init : reachable init
| reachable_step a s s' : reachable s → step a s = Some s' → reachable s'.

(** States reached when every command runs to its end before anything else
    happens. *)
Inductive reachable_seq : system → Prop :=
| seq_init : reachable_seq init
| seq_accept sock s s' : reachable_seq s → step (Accept sock) s = Some s' → reachable_seq s'
| seq_fail sock s s' : reachable_seq s → step (Fail sock) s = Some s' → reachable_seq s'
| seq_exec sock ev s s' : reachable_seq s → exec sock ev s = Some s' → reachable_seq s'.

Definition lobby_trace : list action :=
  [Accept 1; Recv 1 (line "/nick alice"); Recv 1 (line "/join lobby")].

Definition alice_in_lobby : system := default init (run lobby_trace init).

Definition pending_trace : list action :=
  [Accept 1; Accept 2; Recv 1 (line "/nick alice"); Recv 2 (line "/nick bob");
   Recv 1 (line "/join lobby"); Recv 1 (line "/send lobby hi")].

(** Alice's [/send] has passed its membership check and has released the
    lock; her broadcast has not started. *)
Definition send_pending : system := default init (run pending_trace init).

(** Bob joins the channel at that moment, then Alice's broadcast runs. *)
Definition bob_joined : system :=
  default init (step (Recv 2 (line "/join lobby")) send_pending).
Definition delivered : system := default init (step (Resume 1) bob_joined).

Definition timeout_trace : list action :=
  [Accept 1; Recv 1 (line "/nick alice"); Recv 1 (line "/join lobby");
   Recv 1 RecvError; Accept 2; Recv 2 (line "/nick alice")].

Definition bad_bytes_trace : list action :=
  [Accept 1; Recv 1 (line "/nick alice"); Recv 1 (line "/join lobby");
   Recv 1 RecvUndecodable; Accept 2; Recv 2 (line "/nick alice")].

Definition quit_broken_trace : list action :=
  [Accept 1; Recv 1 (line "/nick alice"); Recv 1 (line "/join lobby");
   Fail 1; Recv 1 (line "/quit"); Accept 2; Recv 2 (line "/nick alice")].

(** The facts that show a nickname left behind by a dead thread: thread 1
    has ended without cleanup, "alice" still maps to its socket and is still
    a member of "lobby", and the "/nick alice" of connection 2 was refused. *)
Definition alice_leaked (s : system) : Prop :=
  threads s !! 1 = Some (Thread (Some "alice") Crashed)
  ∧ clients (shared s) !! "alice" = Some 1
  ∧ channels (shared s) !! "lobby" = Some {["alice"]}
  ∧ threads s !! 2 = Some (Thread None AtRecv)
  ∧ last (outbox (shared s)) = Some (2, taken_line).

(** ** Further notions: whole sessions and the client

    [all_space] tells whether every character of a text is whitespace. *)
Fixpoint all_space (s : string) : bool :=
  match s with
  | "" => true
  | String a s' => isspace a && all_space s'
  end.

(** The entries of the record of sends that a computation added. *)
Definition added (w w' : world) : list (handle * string) :=
  drop (length (outbox w)) (outbox w').

(** The thread of [sock] runs the commands [evs] one after the other with
    nothing of another thread in between. *)
Fixpoint session (sock : handle) (evs : list recv_event) (s : system) : option system :=
  match evs with
  | [] => Some s
  | ev :: evs' =>
      match exec sock ev s with
      | Some s' => session sock evs' s'
      | None => None
      end
  end.

(** Every way a pass can end up to the end of the dispatch, with the sends
    it makes: nothing at all; one reply on the own socket; a successful
    [/nick]; a [/join]; a [/send] that passed its check; a [/pm]. *)
Inductive receive_shape (sock : handle) (nickname : option string) (w : world)
    : outcome (option string * tail) * world → Prop :=
| shape_silent o :
    o = Raised ∨ o = Normal (nickname, Continue) ∨ o = Normal (nickname, Break) →
    receive_shape sock nickname w (o, w)
| shape_reply o text :
    o = Raised ∨ o = Normal (nickname, Continue) ∨ o = Normal (nickname, Break) →
    receive_shape sock nickname w (o, record_send sock text w)
| shape_nick n o :
    n ≠ "" →
    n ∉ dom (clients w) →
    o = Raised ∨ o = Normal (Some n, Continue) →
    receive_shape sock nickname w
      (o, record_send sock (nick_set_line n)
            (set_clients (insert n sock) (dropped nickname w)))
| shape_join n c o :
    as_nick nickname = Some n →
    c ≠ "" →
    o = Raised ∨ o = Normal (nickname, Continue) →
    receive_shape sock nickname w
      (o, record_send sock (joined_line c) (set_channels (join n c) w))
| shape_send n c m members :
    as_nick nickname = Some n →
    partition_space c = None →
    channels w !! c = Some members →
    n ∈ members →
    receive_shape sock nickname w (Normal (nickname, Broadcast n c m), w)
| shape_pm n t m o :
    as_nick nickname = Some n →
    partition_space t = None →
    o = Raised ∨ o = Normal (nickname, Continue) →
    receive_shape sock nickname w (o, (private_message n t m w).2).

(** A world in which one registered name contains a space. *)
Definition spaced_world : world :=
  World (<["alice" := 1]> (<["bob b" := 2]> ∅)) ∅ [] ∅.

(** The socket an action is about. *)
Definition actor (a : action) : handle :=
  match a with
  | Accept sock | Recv sock _ | Resume sock | Fail sock => sock
  end.

(** Thread 1 has died in [recv] while holding "alice". *)
Definition alice_crashed : system := default init (run (take 4 timeout_trace) init).

(** The names the local variable [nickname] stands for: one or none. *)
Definition mine (nickname : option string) : gset string :=
  match as_nick nickname with
  | Some n => {[n]}
  | None => ∅
  end.

(** How the registries relate to those at the time the connection of
    [sock] was accepted ([clients0], [channels0]) while its thread runs
    alone: a running thread has added its one nickname and nothing else; a
    closed one has put everything back. *)
Definition session_inv (clients0 : gmap string handle)
    (channels0 : gmap string (gset string)) (sock : handle) (s : system) : Prop :=
  ∃ t, threads s !! sock = Some t ∧
    match at_pc t with
    | Crashed => True
    | Closed =>
        clients (shared s) = clients0 ∧
        ∀ c members, channels0 !! c = Some members →
          channels (shared s) !! c = Some members
    | AtRecv | AtBroadcast _ _ _ =>
        clients (shared s) =
          match as_nick (nickname t) with
          | Some n => <[n := sock]> clients0
          | None => clients0
          end ∧
        mine (nickname t) ## dom clients0 ∧
        ∀ c members, channels0 !! c = Some members →
          ∃ members', channels (shared s) !! c = Some members' ∧
            members ⊆ members' ∧ members' ⊆ members ∪ mine (nickname t)
    end.

(** Bob connects to the server in which Alice sits in "lobby", talks and
    leaves with "/quit". *)
Definition bob_session : list recv_event :=
  [line "/nick bob"; line "/join lobby"; line "/join den"; line "/send lobby hi";
   line "/nick robert"; line "/quit"].
Definition bob_accepted : system := default init (step (Accept 2) alice_in_lobby).
Definition bob_gone : system := default init (session 2 bob_session bob_accepted).

(** * Facts about text *)

Example strip_ex : strip ("  /nick bob " +:+ nl) = "/nick bob".
Proof. reflexivity. Qed.

Example split_ex1 : split_space 2 "/send lobby hi there" = ["/send"; "lobby"; "hi there"].
Proof. reflexivity. Qed.

Example split_ex2 : split_space 2 "/send  x" = ["/send"; ""; "x"].
Proof. reflexivity. Qed.

Example split_ex3 : split_space 1 "/nick  bob" = ["/nick"; " bob"].
Proof. reflexivity. Qed.

Section text_facts.

Lemma partition_space_app (c m : string) :
  partition_space c = None →
  partition_space (c +:+ " " +:+ m) = Some (c, m).
Proof.
  induction c as [|a c IH]; simpl; [done|].
  destruct (Ascii.eqb a " "); [done|].
  destruct (partition_space c) as [[pre post]|] eqn:E; [done|].
  intros _. by rewrite IH.
Qed.

Lemma is_empty_true (s : string) : is_empty s = true ↔ s = "".
Proof. destruct s; simpl; split; congruence. Qed.

Lemma is_empty_false (s : string) : is_empty s = false ↔ s ≠ "".
Proof. destruct s; simpl; split; congruence. Qed.

Lemma eqb_quit_extra (extra : string) :
  extra ≠ "" → String.eqb ("/quit" +:+ extra) "/quit" = false.
Proof. destruct extra; [done|]. reflexivity. Qed.

End text_facts.

(** * Router *)

Section router.

Variables (sender_nick channel_name message : string).

Lemma broadcast_to_eq (n : string) (w : world) :
  broadcast_to sender_nick channel_name message n w =
  (Normal (),
   World (clients w) (channels w)
         (outbox w ++ (if decide (n ≠ sender_nick) then option_list (delivery sender_nick channel_name message w n) else []))
         (broken w)).
Proof.
  unfold broadcast_to, bind, get, delivery.
  destruct (clients w !! n) as [sock|]; simpl.
  - case_bool_decide.
    + rewrite decide_True by done. unfold try_pass, sendall.
      by destruct (decide (sock ∈ broken w)).
    + rewrite decide_False by (intros ?; done).
      unfold ret. rewrite app_nil_r. by destruct w.
  - unfold ret. destruct (decide _); rewrite app_nil_r; by destruct w.
Qed.

(** The loop of the broadcast touches nothing but the record of sends: each
    visited name other than the sender that has a handle adds one entry. *)
Lemma for_each_broadcast_to (l : list string) (w : world) :
  for_each l (broadcast_to sender_nick channel_name message) w =
  (Normal (),
   World (clients w) (channels w)
         (outbox w ++ omap (delivery sender_nick channel_name message w) (filter (λ n, n ≠ sender_nick) l))
         (broken w)).
Proof.
  revert w. induction l as [|n l IH]; intros w.
  - simpl. rewrite app_nil_r. by destruct w.
  - simpl. unfold bind. rewrite broadcast_to_eq, IH. simpl.
    rewrite filter_cons, <- app_assoc.
    destruct (decide (n ≠ sender_nick)); [|done].
    simpl. by destruct (delivery sender_nick channel_name message w n).
Qed.

End router.

Lemma elem_of_deliveries (w : world) (sender_nick channel_name message : string)
    (sock : handle) (text : string) :
  (sock, text) ∈ deliveries w sender_nick channel_name message ↔
  text = channel_line channel_name sender_nick message ∧
  ∃ n, n ∈ default ∅ (channels w !! channel_name) ∧ n ≠ sender_nick ∧
       clients w !! n = Some sock.
Proof.
  unfold deliveries, membersExcluding. rewrite list_elem_of_omap. split.
  - intros (n & Hn & Hsock). unfold delivery in Hsock.
    apply list_elem_of_filter in Hn as [Hne Hn]. apply elem_of_elements in Hn.
    destruct (clients w !! n) as [sock'|] eqn:E; simplify_eq/=. eauto.
  - intros (-> & n & Hn & Hne & Hsock). exists n. split.
    + apply list_elem_of_filter. split; [done|]. by apply elem_of_elements.
    + unfold delivery. by rewrite Hsock.
Qed.

Lemma broadcast_channel_message_eq (sender_nick channel_name message : string) (w : world) :
  broadcast_channel_message sender_nick channel_name message w =
  (Normal (),
   match channels w !! channel_name with
   | Some _ =>
       World (clients w) (channels w)
             (outbox w ++ deliveries w sender_nick channel_name message) (broken w)
   | None => w
   end).
Proof.
  unfold broadcast_channel_message, bind, get, deliveries, membersExcluding.
  destruct (channels w !! channel_name) as [members|]; [|done].
  apply for_each_broadcast_to.
Qed.



Example broadcast_lobby :
  (broadcast_channel_message "alice" "lobby" "hi" lobby_world).2 =
  record_send 2 ("[Channel lobby] alice: hi" +:+ nl) lobby_world.
Proof. vm_compute. reflexivity. Qed.

(** * Command dispatch *)

Lemma receive_text (sock : handle) (nickname : option string) (data message : string) :
  strip data = message → message ≠ "" →
  receive sock nickname (RecvText data) = command sock nickname message.
Proof.
  intros Hs Hm. unfold receive.
  destruct data as [|a data]; [by subst|]. simpl is_empty. cbv iota.
  rewrite Hs. apply is_empty_false in Hm. by rewrite Hm.
Qed.

Lemma command_nick (sock : handle) (nickname : option string) (arg : string) :
  strip arg ≠ "" →
  command sock nickname ("/nick " +:+ arg) = nick_locked sock nickname (strip arg).
Proof.
  intros Hn. unfold command.
  change (startswith "/nick " ("/nick " +:+ arg)) with true.
  change (split_space 1 ("/nick " +:+ arg) !! 1) with (Some arg).
  cbv iota beta zeta. apply is_empty_false in Hn. by rewrite Hn.
Qed.

Lemma sendall_world (sock : handle) (text : string) (w : world) :
  (sendall sock text w).2 = record_send sock text w.
Proof. unfold sendall. by destruct (decide _). Qed.

Lemma sendall_eq (sock : handle) (text : string) (w : world) :
  sendall sock text w =
  (if decide (sock ∈ broken w) then Raised else Normal (), record_send sock text w).
Proof. unfold sendall. by destruct (decide _). Qed.

Lemma nick_locked_taken (sock : handle) (nickname : option string) (n : string) (w : world) :
  n ∈ dom (clients w) →
  nick_locked sock nickname n w =
  (if decide (sock ∈ broken w) then Raised else Normal (nickname, Continue),
   record_send sock taken_line w).
Proof.
  intros Hn. unfold nick_locked, bind, get. rewrite decide_True by done.
  rewrite sendall_eq. by destruct (decide _).
Qed.

Lemma drop_old_eq (nickname : option string) (w : world) :
  drop_old nickname w =
  (Normal (),
   match as_nick nickname with
   | Some old => if decide (old ∈ dom (clients w)) then remove_session old w else w
   | None => w
   end).
Proof.
  unfold drop_old, bind, get. destruct (as_nick nickname) as [old|]; [|done].
  by destruct (decide _).
Qed.

Lemma nick_locked_free (sock : handle) (nickname : option string) (n : string) (w : world) :
  n ∉ dom (clients w) →
  nick_locked sock nickname n w =
  (if decide (sock ∈ broken w) then Raised else Normal (Some n, Continue),
   record_send sock (nick_set_line n)
     (set_clients (insert n sock) (drop_old nickname w).2)).
Proof.
  intros Hn. unfold nick_locked, bind at 1, get. rewrite decide_False by done.
  unfold bind at 1. rewrite drop_old_eq. cbn [snd].
  unfold bind, modify. rewrite sendall_eq.
  set (w' := match as_nick nickname with Some _ => _ | None => _ end).
  assert (Hb : broken (set_clients (insert n sock) w') = broken w).
  { unfold w'. destruct (as_nick nickname); [|done]. by destruct (decide _). }
  rewrite Hb. by destruct (decide _).
Qed.

(** C1 (as the code has it).  For a received text whose stripped form is
    "/nick " followed by an argument that strips to a non-empty name [n]:
    the pass leaves the world as it was except for the one line "Nickname
    already taken. Try another one." sent to the requester exactly when [n]
    is a key of [clients], whoever registered it, the requester included.
    In that case both registries are unchanged and the local nickname is
    kept; otherwise the pass registers [n] for the requester and sends
    "Nickname set to 'n'.". *)
Theorem nick_refused_iff_registered
    (w : world) (sock : handle) (nickname : option string) (data arg : string) :
  strip data = "/nick " +:+ arg →
  strip arg ≠ "" →
  let n := strip arg in
  let r := receive sock nickname (RecvText data) w in
  (r.2 = record_send sock taken_line w ↔ n ∈ dom (clients w))
  ∧ (n ∈ dom (clients w) →
       registries r.2 = registries w ∧
       r.1 = if decide (sock ∈ broken w) then Raised else Normal (nickname, Continue))
  ∧ (n ∉ dom (clients w) →
       clients r.2 !! n = Some sock ∧
       last (outbox r.2) = Some (sock, nick_set_line n) ∧
       r.1 = if decide (sock ∈ broken w) then Raised else Normal (Some n, Continue)).
Proof.
  intros Hdata Hn n r. unfold r.
  rewrite (receive_text _ _ _ _ Hdata) by (by destruct arg).
  rewrite command_nick by done. fold n.
  destruct (decide (n ∈ dom (clients w))) as [Hin|Hout].
  - rewrite nick_locked_taken by done. cbn [fst snd].
    split; [done|]. split; [done|]. intros ?; done.
  - rewrite nick_locked_free by done. cbn [fst snd].
    split; [|split; [intros ?; done|]].
    + split; [|done]. intros Heq. exfalso. apply Hout.
      apply (f_equal clients) in Heq. cbn in Heq. rewrite <- Heq.
      rewrite dom_insert. set_solver.
    + intros _. cbn. rewrite lookup_insert_eq, last_snoc. done.
Qed.

Lemma nick_refused_iff_registered_witness :
  let w := World (<["bob" := 2]> ∅) ∅ [] ∅ in
  (receive 1 None (line "/nick alice") w).1 = Normal (Some "alice", Continue)
  ∧ (receive 2 (Some "bob") (line "/nick  bob") w).2 = record_send 2 taken_line w.
Proof.
  intros w.
  pose proof (nick_refused_iff_registered w 1 None ("/nick alice" +:+ nl) "alice"
                eq_refl ltac:(discriminate)) as (_ & _ & Hfree).
  pose proof (nick_refused_iff_registered w 2 (Some "bob") ("/nick  bob" +:+ nl) " bob"
                eq_refl ltac:(discriminate)) as (Hiff & _ & _).
  split.
  - destruct Hfree as (_ & _ & Hres); [|exact Hres].
    intros [x Hx]%elem_of_dom. vm_compute in Hx. discriminate.
  - apply Hiff. apply elem_of_dom. by eexists.
Defined.

(** C1, counterexample.  Socket 1 is the only connection and holds "alice";
    no other session holds the name.  Its own "/nick alice" is nevertheless
    answered with "Nickname already taken. Try another one." instead of
    succeeding. *)
Lemma nick_own_name_refused :
  run [Accept 1; Recv 1 (line "/nick alice")] init = Some alice_registered
  ∧ threads alice_registered = {[1 := Thread (Some "alice") AtRecv]}
  ∧ clients (shared alice_registered) = {["alice" := 1]}
  ∧ receive 1 (Some "alice") (line "/nick alice") (shared alice_registered) =
      (Normal (Some "alice", Continue),
       record_send 1 taken_line (shared alice_registered)).
Proof. vm_compute. done. Qed.

Lemma iteration_continue (sock : handle) (nickname : option string) (ev : recv_event)
    (text : string) (w : world) :
  receive sock nickname ev w =
    (if decide (sock ∈ broken w) then Raised else Normal (nickname, Continue),
     record_send sock text w) →
  iteration sock nickname ev w =
    (if decide (sock ∈ broken w) then Raised else Normal (nickname, true),
     record_send sock text w).
Proof.
  intros H. unfold iteration, bind. rewrite H. by destruct (decide _).
Qed.

Lemma command_unknown (sock : handle) (nickname : option string) (message : string)
    (w : world) :
  startswith "/nick " message = false →
  startswith "/join " message = false →
  startswith "/send " message = false →
  startswith "/pm " message = false →
  String.eqb message "/quit" = false →
  command sock nickname message w =
    (if decide (sock ∈ broken w) then Raised else Normal (nickname, Continue),
     record_send sock unknown_line w).
Proof.
  intros H1 H2 H3 H4 H5. unfold command. rewrite H1, H2, H3, H4, H5.
  unfold bind. rewrite sendall_eq. by destruct (decide _).
Qed.

(** A received text that strips to the bare word "/nick", "/join", "/send"
    or "/pm", or to "/quit" followed by further text, is answered with the
    unknown-command line and nothing else happens. *)
Lemma stripped_bare_command_unknown
    (w : world) (sock : handle) (nickname : option string) (data : string) :
  strip data = "/nick" ∨ strip data = "/join" ∨ strip data = "/send" ∨
  strip data = "/pm" ∨ (∃ extra, extra ≠ "" ∧ strip data = "/quit" +:+ extra) →
  iteration sock nickname (RecvText data) w =
    (if decide (sock ∈ broken w) then Raised else Normal (nickname, true),
     record_send sock unknown_line w).
Proof.
  intros H. apply iteration_continue.
  destruct H as [H|[H|[H|[H|(extra & Hne & H)]]]];
    rewrite (receive_text _ _ _ _ H) by done;
    apply command_unknown; try reflexivity.
  by apply eqb_quit_extra.
Qed.

Lemma split_space_two (word arg rest : string) :
  partition_space word = None → partition_space arg = None →
  split_space 2 (word +:+ " " +:+ arg +:+ " " +:+ rest) = [word; arg; rest].
Proof.
  intros Hw Ha. cbn [split_space].
  rewrite (partition_space_app word _ Hw), (partition_space_app arg _ Ha). done.
Qed.

Lemma command_pm (sock : handle) (nickname : option string) (n t m : string) :
  as_nick nickname = Some n → partition_space t = None →
  command sock nickname ("/pm " +:+ t +:+ " " +:+ m) =
  (private_message n t m ;; ret (nickname, Continue)).
Proof.
  intros Hn Ht. unfold command.
  change (startswith "/nick " ("/pm " +:+ t +:+ " " +:+ m)) with false.
  change (startswith "/join " ("/pm " +:+ t +:+ " " +:+ m)) with false.
  change (startswith "/send " ("/pm " +:+ t +:+ " " +:+ m)) with false.
  change (startswith "/pm " ("/pm " +:+ t +:+ " " +:+ m)) with true.
  cbv iota.
  change ("/pm " +:+ t +:+ " " +:+ m) with ("/pm" +:+ " " +:+ t +:+ " " +:+ m).
  rewrite split_space_two by done. by rewrite Hn.
Qed.

Lemma command_send (sock : handle) (nickname : option string) (n c m : string) :
  as_nick nickname = Some n → partition_space c = None →
  command sock nickname ("/send " +:+ c +:+ " " +:+ m) =
  (let* t := send_locked sock n c m in ret (nickname, t)).
Proof.
  intros Hn Hc. unfold command.
  change (startswith "/nick " ("/send " +:+ c +:+ " " +:+ m)) with false.
  change (startswith "/join " ("/send " +:+ c +:+ " " +:+ m)) with false.
  change (startswith "/send " ("/send " +:+ c +:+ " " +:+ m)) with true.
  cbv iota.
  change ("/send " +:+ c +:+ " " +:+ m) with ("/send" +:+ " " +:+ c +:+ " " +:+ m).
  rewrite split_space_two by done. by rewrite Hn.
Qed.

(** C6.  A session whose nickname [s] is registered for its own socket
    sends "/pm t m".  If [t] is not a key of [clients], the world changes by
    exactly one send, "User 't' not found." on the sender's socket; if [t]
    is registered, by exactly one send, "[Private] s: m" on the socket of
    [t].  Both registries are as before in either case. *)
Theorem pm_spec (w : world) (sock : handle) (nickname : option string)
    (s data t m : string) :
  as_nick nickname = Some s →
  clients w !! s = Some sock →
  partition_space t = None →
  strip data = "/pm " +:+ t +:+ " " +:+ m →
  let r := iteration sock nickname (RecvText data) w in
  (clients w !! t = None →
     r = (if decide (sock ∈ broken w) then Raised else Normal (nickname, true),
          record_send sock (not_found_line t) w))
  ∧ (∀ target, clients w !! t = Some target →
     r = (Normal (nickname, true), record_send target (private_line s m) w))
  ∧ registries r.2 = registries w.
Proof.
  intros Hs Hsock Ht Hdata r. unfold r, iteration.
  rewrite (receive_text _ _ _ _ Hdata) by done.
  rewrite (command_pm _ _ _ _ _ Hs Ht).
  unfold bind, private_message, bind, get.
  destruct (clients w !! t) as [target|] eqn:Htarget.
  - unfold try_pass. rewrite sendall_world. cbn.
    split; [done|]. split; [|done]. by intros ? [= <-].
  - rewrite Hsock, sendall_eq.
    destruct (decide (sock ∈ broken w)); cbn; done.
Qed.

Lemma pm_spec_witness :
  (iteration 1 (Some "alice") (line "/pm ghost hello") lobby_world).2 =
    record_send 1 ("User 'ghost' not found." +:+ nl) lobby_world
  ∧ (iteration 1 (Some "alice") (line "/pm bob hello") lobby_world).2 =
    record_send 2 ("[Private] alice: hello" +:+ nl) lobby_world.
Proof.
  pose proof (pm_spec lobby_world 1 (Some "alice") "alice" ("/pm ghost hello" +:+ nl)
                "ghost" "hello" eq_refl eq_refl eq_refl eq_refl) as (Hghost & _ & _).
  pose proof (pm_spec lobby_world 1 (Some "alice") "alice" ("/pm bob hello" +:+ nl)
                "bob" "hello" eq_refl eq_refl eq_refl eq_refl) as (_ & Hbob & _).
  split.
  - exact (f_equal snd (Hghost eq_refl)).
  - exact (f_equal snd (Hbob 2 eq_refl)).
Defined.

(** C3.  A session with nickname [n] sends "/send c m".  If [n] is not in
    the member set of [c] when the check runs (or [c] does not exist), the
    world changes by exactly one send, the "You must join channel 'c'..."
    line on the sender's own socket, and both registries are as before.  If
    [n] is a member, the pass is the broadcast of C2.  So a channel line is
    sent to somebody only if [n] is a member. *)
Theorem send_gated (w : world) (sock : handle) (nickname : option string)
    (n data c m : string) :
  as_nick nickname = Some n →
  partition_space c = None →
  strip data = "/send " +:+ c +:+ " " +:+ m →
  let r := iteration sock nickname (RecvText data) w in
  let member := ∃ members, channels w !! c = Some members ∧ n ∈ members in
  (¬ member →
     r = (if decide (sock ∈ broken w) then Raised else Normal (nickname, true),
          record_send sock (must_join_line c) w))
  ∧ (member →
     r = (Normal (nickname, true),
          World (clients w) (channels w) (outbox w ++ deliveries w n c m) (broken w)))
  ∧ (∀ target, (target, channel_line c n m) ∈ drop (length (outbox w)) (outbox r.2) →
     member)
  ∧ registries r.2 = registries w.
Proof.
  intros Hn Hc Hdata r member.
  set (isin := n ∈ default ∅ (channels w !! c)).
  assert (Hmem : member ↔ isin).
  { unfold member, isin. split.
    - by intros (members & -> & ?).
    - destruct (channels w !! c) as [members|]; [eauto|set_solver]. }
  assert (Hr : r = if decide isin
               then (Normal (nickname, true),
                     World (clients w) (channels w) (outbox w ++ deliveries w n c m)
                           (broken w))
               else (if decide (sock ∈ broken w) then Raised else Normal (nickname, true),
                     record_send sock (must_join_line c) w)).
  { unfold r, iteration, isin.
    rewrite (receive_text _ _ _ _ Hdata) by done.
    rewrite (command_send _ _ _ _ _ Hn Hc).
    unfold bind at 1 2. unfold send_locked, bind at 1, get.
    destruct (channels w !! c) as [members|] eqn:Hch.
    - change (default ∅ (Some members)) with members.
      destruct (decide (n ∈ members)) as [Hin|Hout].
      + unfold ret at 1 2. cbn [snd fst finish]. unfold bind.
        by rewrite broadcast_channel_message_eq, Hch.
      + unfold bind. rewrite sendall_eq. by destruct (decide (sock ∈ broken w)).
    - change (default ∅ (@None (gset string))) with (∅ : gset string).
      rewrite decide_False by set_solver.
      unfold bind. rewrite sendall_eq. by destruct (decide (sock ∈ broken w)). }
  split; [|split; [|split]].
  - intros Hno. rewrite Hr, decide_False; [done|]. by rewrite <- Hmem.
  - intros Hyes. rewrite Hr, decide_True; [done|]. by rewrite <- Hmem.
  - intros target. rewrite Hr. destruct (decide isin) as [|Hno]; [by rewrite Hmem|].
    assert (Hout : outbox (if decide (sock ∈ broken w) then Raised else Normal (nickname, true),
                           record_send sock (must_join_line c) w).2
                   = outbox w ++ [(sock, must_join_line c)]) by done.
    rewrite Hout, drop_app_length. intros Hin%list_elem_of_singleton.
    discriminate Hin.
  - rewrite Hr. destruct (decide isin); done.
Qed.

Lemma send_gated_witness :
  (iteration 1 (Some "alice") (line "/send lobby hi") lobby_world).2 =
    record_send 2 ("[Channel lobby] alice: hi" +:+ nl) lobby_world
  ∧ (iteration 3 (Some "carol") (line "/send lobby hi") lobby_world).2 =
    record_send 3 ("You must join channel 'lobby' before sending messages there." +:+ nl)
      lobby_world.
Proof.
  pose proof (send_gated lobby_world 1 (Some "alice") "alice" ("/send lobby hi" +:+ nl)
                "lobby" "hi" eq_refl eq_refl eq_refl) as (_ & Hin & _).
  pose proof (send_gated lobby_world 3 (Some "carol") "carol" ("/send lobby hi" +:+ nl)
                "lobby" "hi" eq_refl eq_refl eq_refl) as (Hout & _).
  split.
  - assert (Hmem : ∃ members : gset string,
               channels lobby_world !! "lobby" = Some members ∧ "alice" ∈ members).
    { exists {["alice"; "bob"]}. split; [reflexivity|set_solver]. }
    etrans; [exact (f_equal snd (Hin Hmem))|]. vm_compute. reflexivity.
  - refine (f_equal snd (Hout _)).
    intros (members & Hch & Hmem). unfold lobby_world in Hch. cbn [channels] in Hch.
    rewrite lookup_insert_eq in Hch. injection Hch as Hch. rewrite <- Hch in Hmem.
    apply elem_of_union in Hmem as [Hmem|Hmem]; apply elem_of_singleton in Hmem;
      discriminate Hmem.
Defined.

Lemma join_locked_eq (n c : string) (w : world) :
  join_locked n c w = (Normal (), set_channels (join n c) w).
Proof.
  unfold join_locked, bind, get, modify, set_channels, join.
  destruct (decide (c ∈ dom (channels w))) as [Hin|Hout]; cbn; f_equal; f_equal.
  - apply elem_of_dom in Hin as [ch Hch]. rewrite Hch. cbn.
    apply map_eq. intros k. destruct (decide (k = c)) as [->|Hne].
    + by rewrite lookup_alter_eq, lookup_insert_eq, Hch.
    + by rewrite lookup_alter_ne, lookup_insert_ne.
  - apply not_elem_of_dom in Hout. rewrite Hout. cbn.
    by rewrite alter_insert_eq.
Qed.

Lemma join_join (n c : string) (chs : gmap string (gset string)) :
  join n c (join n c chs) = join n c chs.
Proof.
  unfold join. rewrite lookup_insert_eq, insert_insert_eq. cbn.
  by rewrite <- (assoc_L (∪)), (idemp_L (∪)).
Qed.

Lemma command_join (sock : handle) (nickname : option string) (n arg : string) :
  as_nick nickname = Some n → strip arg ≠ "" →
  command sock nickname ("/join " +:+ arg) =
  (join_locked n (strip arg) ;; sendall sock (joined_line (strip arg)) ;;
   ret (nickname, Continue)).
Proof.
  intros Hn Hc. unfold command.
  change (startswith "/nick " ("/join " +:+ arg)) with false.
  change (startswith "/join " ("/join " +:+ arg)) with true.
  change (split_space 1 ("/join " +:+ arg) !! 1) with (Some arg).
  cbv iota beta zeta. apply is_empty_false in Hc. by rewrite Hc, Hn.
Qed.

Lemma iteration_join (sock : handle) (nickname : option string) (n data arg : string)
    (w : world) :
  as_nick nickname = Some n → strip data = "/join " +:+ arg → strip arg ≠ "" →
  (iteration sock nickname (RecvText data) w).2 =
  record_send sock (joined_line (strip arg)) (set_channels (join n (strip arg)) w).
Proof.
  intros Hn Hdata Hc. unfold iteration.
  rewrite (receive_text _ _ _ _ Hdata) by done.
  rewrite (command_join _ _ _ _ Hn Hc).
  unfold bind. rewrite join_locked_eq, sendall_eq.
  by destruct (decide _).
Qed.

(** C8.  "/join c" from a session with nickname [n] makes the member set of
    [c] the old one (the empty set if [c] did not exist) with [n] added,
    changes no other channel and leaves [clients] alone; a second "/join c"
    right after the first leaves both registries exactly as the first left
    them.  The same holds for the locked block on its own. *)
Theorem join_idempotent (w : world) (sock : handle) (nickname : option string)
    (n data arg : string) :
  as_nick nickname = Some n →
  strip data = "/join " +:+ arg →
  strip arg ≠ "" →
  let c := strip arg in
  let w1 := (iteration sock nickname (RecvText data) w).2 in
  let w2 := (iteration sock nickname (RecvText data) w1).2 in
  channels w1 !! c = Some (default ∅ (channels w !! c) ∪ {[n]})
  ∧ (∀ c', c' ≠ c → channels w1 !! c' = channels w !! c')
  ∧ clients w1 = clients w
  ∧ registries w2 = registries w1
  ∧ (join_locked n c (join_locked n c w).2).2 = (join_locked n c w).2.
Proof.
  intros Hn Hdata Hc c w1 w2. unfold w2, w1.
  rewrite !(iteration_join _ _ _ _ _ _ Hn Hdata Hc). fold c.
  rewrite !join_locked_eq. unfold registries. cbn.
  split; [by unfold join; rewrite lookup_insert_eq|].
  split; [by intros c' Hne; unfold join; rewrite lookup_insert_ne|].
  split; [done|]. split.
  - f_equal. apply join_join.
  - unfold set_channels. cbn. f_equal. apply join_join.
Qed.

Lemma join_idempotent_witness :
  let ev := line "/join lobby" in
  let w1 := (iteration 3 (Some "carol") ev lobby_world).2 in
  channels w1 !! "lobby" = Some ({["alice"; "bob"; "carol"]} : gset string)
  ∧ registries (iteration 3 (Some "carol") ev w1).2 = registries w1.
Proof.
  intros ev w1.
  pose proof (join_idempotent lobby_world 3 (Some "carol") "carol" ("/join lobby" +:+ nl)
                "lobby" eq_refl eq_refl ltac:(discriminate)) as (Hc & _ & _ & Hidem & _).
  split; [|exact Hidem].
  etrans; [exact Hc|]. vm_compute. reflexivity.
Defined.

(** * What one pass can do to the registries *)

Lemma send_then_ret_effect (sock sock' : handle) (nickname : option string)
    (text : string) (t : tail) (w : world) :
  t = Continue ∨ t = Break →
  receive_effect sock nickname w ((sendall sock' text ;; ret (nickname, t)) w).
Proof.
  intros Ht. unfold bind. rewrite sendall_eq.
  destruct (decide (sock' ∈ broken w)).
  - apply eff_none; [done|by left].
  - apply eff_none; [done|]. right. destruct Ht as [->| ->]; [by left|by right].
Qed.

Lemma nick_locked_effect (sock : handle) (nickname : option string) (n : string) (w : world) :
  n ≠ "" → receive_effect sock nickname w (nick_locked sock nickname n w).
Proof.
  intros Hn. destruct (decide (n ∈ dom (clients w))) as [Hin|Hout].
  - rewrite nick_locked_taken by done. apply eff_none; [done|].
    destruct (decide _); [by left|by right; left].
  - rewrite nick_locked_free by done. apply (eff_nick _ _ _ n); [done|done|done|].
    destruct (decide _); [by left|by right].
Qed.

Lemma private_message_registries (s t m : string) (w : world) :
  registries (private_message s t m w).2 = registries w.
Proof.
  unfold private_message, bind, get.
  destruct (clients w !! t) as [target|].
  - unfold try_pass. by rewrite sendall_world.
  - destruct (clients w !! s) as [sock|]; [|done]. by rewrite sendall_world.
Qed.

Lemma receive_has_effect (sock : handle) (nickname : option string) (ev : recv_event)
    (w : world) :
  receive_effect sock nickname w (receive sock nickname ev w).
Proof.
  destruct ev as [data| | |]; cbn [receive];
    try (apply eff_none; [done|]; by eauto).
  destruct (is_empty data); [apply eff_none; [done|]; by eauto|]. cbv zeta.
  destruct (is_empty (strip data)); [apply eff_none; [done|]; by eauto|].
  generalize (strip data). intros message. unfold command.
  destruct (startswith "/nick " message).
  { destruct (split_space 1 message !! 1) as [arg|]; [|apply eff_none; [done|]; by eauto].
    cbv zeta. destruct (is_empty (strip arg)) eqn:He.
    - apply send_then_ret_effect. by left.
    - apply nick_locked_effect. by apply is_empty_false. }
  destruct (startswith "/join " message).
  { destruct (split_space 1 message !! 1) as [arg|]; [|apply eff_none; [done|]; by eauto].
    cbv zeta. destruct (is_empty (strip arg)).
    - apply send_then_ret_effect. by left.
    - destruct (as_nick nickname) as [n|] eqn:Hn.
      + unfold bind. rewrite join_locked_eq, sendall_eq.
        destruct (decide _); apply (eff_join _ _ _ n (strip arg)); try done;
          [by left|by right].
      + apply send_then_ret_effect. by left. }
  destruct (startswith "/send " message).
  { destruct (split_space 2 message) as [|? [|c [|m [|? ?]]]];
      try (apply send_then_ret_effect; by left).
    destruct (as_nick nickname) as [n|] eqn:Hn;
      [|apply send_then_ret_effect; by left].
    unfold bind at 1. unfold send_locked, bind at 1, get.
    destruct (channels w !! c) as [members|] eqn:Hch.
    - destruct (decide (n ∈ members)).
      + unfold ret. by apply (eff_send _ _ _ n c m members).
      + unfold bind. rewrite sendall_eq.
        destruct (decide _); apply eff_none; try done; [by left|by right; left].
    - unfold bind. rewrite sendall_eq.
      destruct (decide _); apply eff_none; try done; [by left|by right; left]. }
  destruct (startswith "/pm " message).
  { destruct (split_space 2 message) as [|? [|t [|m [|? ?]]]];
      try (apply send_then_ret_effect; by left).
    destruct (as_nick nickname) as [n|] eqn:Hn;
      [|apply send_then_ret_effect; by left].
    unfold bind. pose proof (private_message_registries n t m w) as Hreg.
    destruct (private_message n t m w) as [[[]|] w'].
    - apply eff_none; [done|]. by right; left.
    - apply eff_none; [done|]. by left. }
  destruct (String.eqb message "/quit").
  - apply send_then_ret_effect. by right.
  - apply send_then_ret_effect. by left.
Qed.

(** * Invariants of the thread system *)

Section dropped_facts.

Variables (nickname : option string) (w : world).

Lemma dropped_eq :
  dropped nickname w =
  match as_nick nickname with
  | Some old => if decide (old ∈ dom (clients w)) then remove_session old w else w
  | None => w
  end.
Proof. unfold dropped. by rewrite drop_old_eq. Qed.

Lemma dropped_clients_lookup (n : string) :
  clients (dropped nickname w) !! n =
  if decide (as_nick nickname = Some n) then None else clients w !! n.
Proof.
  rewrite dropped_eq. destruct (as_nick nickname) as [old|].
  - destruct (decide (old ∈ dom (clients w))) as [Hin|Hout]; cbn.
    + rewrite lookup_delete. destruct (decide (old = n)) as [->|Hne].
      * by rewrite decide_True.
      * rewrite decide_False; [done|congruence].
    + destruct (decide (Some old = Some n)) as [[= ->]|]; [|done].
      by apply not_elem_of_dom.
  - by rewrite decide_False.
Qed.

Lemma dropped_channels_lookup (c : string) :
  members_registered w →
  channels (dropped nickname w) !! c =
  (λ members : gset string,
     match as_nick nickname with Some old => members ∖ {[old]} | None => members end)
  <$> channels w !! c.
Proof.
  intros Hreg. rewrite dropped_eq. destruct (as_nick nickname) as [old|].
  - destruct (decide (old ∈ dom (clients w))) as [Hin|Hout]; cbn.
    + by rewrite lookup_fmap.
    + destruct (channels w !! c) as [members|] eqn:Hc; [|done]. cbn. f_equal.
      assert (old ∉ members) by (intros ?; apply Hout; eauto).
      set_solver.
  - by destruct (channels w !! c).
Qed.

Lemma dropped_members_registered :
  members_registered w → members_registered (dropped nickname w).
Proof.
  intros Hreg c members' n. rewrite dropped_channels_lookup by done.
  destruct (channels w !! c) as [members|] eqn:Hc; [|done]. intros [= <-] Hn.
  apply elem_of_dom. rewrite dropped_clients_lookup.
  destruct (as_nick nickname) as [old|].
  - apply elem_of_difference in Hn as [Hn Hne].
    rewrite decide_False by set_solver. apply elem_of_dom. eauto.
  - rewrite decide_False by done. apply elem_of_dom. eauto.
Qed.

(** After the removal the old nickname is in neither registry. *)
Lemma dropped_gone (old : string) :
  members_registered w → as_nick nickname = Some old →
  (old ∉ dom (clients (dropped nickname w))) ∧
  ∀ c members, channels (dropped nickname w) !! c = Some members → old ∉ members.
Proof.
  intros Hreg Hold. split.
  - apply not_elem_of_dom. rewrite dropped_clients_lookup. by rewrite decide_True.
  - intros c members'. rewrite dropped_channels_lookup by done. rewrite Hold.
    destruct (channels w !! c) as [members|]; [|done]. intros [= <-]. set_solver.
Qed.

End dropped_facts.

Lemma registries_eq (w w' : world) :
  registries w' = registries w ↔ clients w' = clients w ∧ channels w' = channels w.
Proof. unfold registries. split; [by intros [= -> ->]|by intros [-> ->]]. Qed.

Lemma dropped_registries (nickname : option string) (w w' : world) :
  registries w' = registries w →
  registries (dropped nickname w') = registries (dropped nickname w).
Proof.
  intros [Hcl Hch]%registries_eq. rewrite !dropped_eq.
  destruct (as_nick nickname) as [old|]; [|by apply registries_eq].
  rewrite Hcl. destruct (decide _); apply registries_eq; [|done].
  cbn. by rewrite Hcl, Hch.
Qed.

Section preservation.

Variables (s : system) (sock : handle).
Hypothesis Hcons : consistent s.

(** One thread is replaced, the registries stay. *)
Lemma consistent_same_registries (w' : world) (t' : thread) :
  registries w' = registries (shared s) →
  (is_live (at_pc t') = true → ∀ n, as_nick (nickname t') = Some n →
     clients (shared s) !! n = Some sock) →
  (∀ a c m, at_pc t' = AtBroadcast a c m →
     as_nick (nickname t') = Some a ∧
     ∃ members, channels (shared s) !! c = Some members ∧ a ∈ members) →
  (∀ n, clients (shared s) !! n = Some sock → is_live (at_pc t') = true →
     as_nick (nickname t') = Some n) →
  consistent (System w' (<[sock := t']> (threads s))).
Proof.
  intros [Hcl Hch]%registries_eq Hlive Hpend Hown. destruct Hcons as [H1 H2 H3 H4 H5].
  split.
  - intros sock0 t0 n. cbn. rewrite Hcl, lookup_insert.
    destruct (decide (sock = sock0)) as [<-|Hne].
    + intros [= <-] Hl. by apply Hlive.
    + apply H1.
  - intros c members n. cbn. rewrite Hcl, Hch. apply H2.
  - intros sock0 t0 a c m. cbn. rewrite Hch, lookup_insert.
    destruct (decide (sock = sock0)) as [<-|Hne].
    + intros [= <-]. apply Hpend.
    + apply H3.
  - intros n sock0. cbn. rewrite Hcl. intros Hn.
    destruct (decide (sock = sock0)) as [<-|Hne].
    + exists t'. rewrite lookup_insert_eq. split; [done|]. by apply Hown.
    + rewrite lookup_insert_ne by done. by apply H4.
  - intros n1 n2 sock0. cbn. rewrite Hcl. apply H5.
Qed.

Variable t : thread.
Hypothesis Hthread : threads s !! sock = Some t.
Hypothesis Hlive : is_live (at_pc t) = true.

(** No other running thread has the nickname of this one. *)
Lemma nick_of_other (sock0 : handle) (t0 : thread) (n : string) :
  sock0 ≠ sock → threads s !! sock0 = Some t0 → is_live (at_pc t0) = true →
  as_nick (nickname t0) = Some n → as_nick (nickname t) ≠ Some n.
Proof.
  intros Hne Ht0 Hl0 Hn0 Hn. destruct Hcons as [H1 _ _].
  pose proof (H1 _ _ _ Ht0 Hl0 Hn0) as Ha.
  pose proof (H1 _ _ _ Hthread Hlive Hn) as Hb. congruence.
Qed.

(** The thread joins a channel under its nickname. *)
Lemma consistent_join (w' : world) (t' : thread) (n c : string) :
  as_nick (nickname t) = Some n →
  registries w' = (clients (shared s), join n c (channels (shared s))) →
  t' = Thread (nickname t) AtRecv ∨ is_live (at_pc t') = false →
  consistent (System w' (<[sock := t']> (threads s))).
Proof.
  intros Hn [= Hcl Hch] Ht'. pose proof Hcons as [H1 H2 H3 H4 H5].
  pose proof (H1 _ _ _ Hthread Hlive Hn) as Hmine.
  split; [| | | |by intros n1 n2 sock0; cbn; rewrite Hcl; apply H5].
  - intros sock0 t0 n0. cbn. rewrite Hcl, lookup_insert.
    destruct (decide (sock = sock0)) as [<-|Hne]; [|apply H1].
    intros [= <-]. destruct Ht' as [->|Hdead]; [|congruence].
    cbn. intros _ Hn0. rewrite Hn in Hn0. by injection Hn0 as <-.
  - intros c0 members n0. cbn. rewrite Hcl, Hch. unfold join. rewrite lookup_insert.
    destruct (decide (c = c0)) as [<-|Hne]; [|apply H2].
    intros [= <-] [Hin| ->%elem_of_singleton]%elem_of_union.
    + destruct (channels (shared s) !! c) as [members|] eqn:Hc; [|set_solver].
      by apply (H2 c members).
    + apply elem_of_dom. eauto.
  - intros sock0 t0 a c0 m. cbn. rewrite Hch, lookup_insert.
    destruct (decide (sock = sock0)) as [<-|Hne].
    + intros [= <-] Hpc. destruct Ht' as [->|Hdead]; [done|].
      by rewrite Hpc in Hdead.
    + intros Ht0 Hpc. destruct (H3 _ _ _ _ _ Ht0 Hpc) as (Ha & members & Hc0 & Hin).
      split; [done|]. unfold join. rewrite lookup_insert.
      destruct (decide (c = c0)) as [<-|Hnec]; [|eauto].
      rewrite Hc0. cbn. eexists. split; [done|]. set_solver.
  - intros n0 sock0. cbn. rewrite Hcl. intros Hn0.
    destruct (H4 _ _ Hn0) as (t0 & Ht0 & Hl0).
    destruct (decide (sock = sock0)) as [<-|Hne].
    + exists t'. rewrite lookup_insert_eq. split; [done|].
      destruct Ht' as [->|Hdead]; [|congruence].
      intros _. cbn. rewrite Hthread in Ht0. injection Ht0 as <-. by apply Hl0.
    + exists t0. by rewrite lookup_insert_ne.
Qed.

(** The thread removes its old nickname and, for a rename, registers [extra]
    for its own socket. *)
Lemma consistent_dropped (w' : world) (t' : thread) (extra : option string) :
  let w1 := dropped (nickname t) (shared s) in
  registries w' =
    (match extra with Some n => <[n := sock]> (clients w1) | None => clients w1 end,
     channels w1) →
  (∀ n, extra = Some n → n ∉ dom (clients (shared s))) →
  (is_live (at_pc t') = true →
     at_pc t' = AtRecv ∧ ∃ n, extra = Some n ∧ nickname t' = Some n ∧ n ≠ "") →
  consistent (System w' (<[sock := t']> (threads s))).
Proof.
  intros w1 [= Hcl Hch] Hfresh Ht'. pose proof Hcons as [H1 H2 H3 H4 H5].
  assert (Hmine : ∀ n0, clients w1 !! n0 ≠ Some sock).
  { intros n0. unfold w1. rewrite dropped_clients_lookup.
    destruct (decide (as_nick (nickname t) = Some n0)) as [|Hne]; [done|].
    intros Hn0. destruct (H4 _ _ Hn0) as (t0 & Ht0 & Hl0).
    rewrite Hthread in Ht0. injection Ht0 as <-. by apply Hne, Hl0. }
  assert (Hsub : ∀ n0 sock0, clients w1 !! n0 = Some sock0 →
            clients (shared s) !! n0 = Some sock0).
  { intros n0 sock0. unfold w1. rewrite dropped_clients_lookup.
    by destruct (decide _). }
  assert (Hother : ∀ sock0 t0 n0, sock0 ≠ sock → threads s !! sock0 = Some t0 →
            is_live (at_pc t0) = true → as_nick (nickname t0) = Some n0 →
            clients w' !! n0 = Some sock0).
  { intros sock0 t0 n0 Hne Ht0 Hl0 Hn0. rewrite Hcl.
    assert (Hw1 : clients w1 !! n0 = Some sock0).
    { unfold w1. rewrite dropped_clients_lookup.
      rewrite decide_False by by apply (nick_of_other sock0 t0).
      by apply (H1 _ t0). }
    destruct extra as [n|]; [|done].
    rewrite lookup_insert_ne; [done|]. intros ->.
    apply (Hfresh n0 eq_refl). apply elem_of_dom. exists sock0. by apply (H1 _ t0). }
  split.
  - intros sock0 t0 n0. cbn. rewrite lookup_insert.
    destruct (decide (sock = sock0)) as [<-|Hne]; [|by apply Hother].
    intros [= <-] Hl. destruct (Ht' Hl) as (_ & n & -> & Hnick & Hne).
    rewrite Hnick. cbn. destruct n; [done|]. cbn. intros [= <-].
    rewrite Hcl. apply lookup_insert_eq.
  - intros c members n0. cbn. rewrite Hch. intros Hc Hin.
    pose proof (dropped_members_registered (nickname t) (shared s) H2 c members n0 Hc Hin)
      as Hdom.
    rewrite Hcl. destruct extra as [n|]; [|done]. rewrite dom_insert. set_solver.
  - intros sock0 t0 a c m. cbn. rewrite lookup_insert.
    destruct (decide (sock = sock0)) as [<-|Hne].
    + intros [= <-] Hpc. assert (Hl : is_live (at_pc t') = true) by by rewrite Hpc.
      destruct (Ht' Hl) as (Hrecv & _). congruence.
    + intros Ht0 Hpc. destruct (H3 _ _ _ _ _ Ht0 Hpc) as (Ha & members & Hc & Hin).
      split; [done|]. rewrite Hch. unfold w1.
      rewrite dropped_channels_lookup, Hc by done. cbn. eexists. split; [done|].
      assert (Hl0 : is_live (at_pc t0) = true) by by rewrite Hpc.
      pose proof (nick_of_other sock0 t0 a (not_eq_sym Hne) Ht0 Hl0 Ha) as Hdiff.
      destruct (as_nick (nickname t)) as [old|]; [|done].
      apply elem_of_difference. split; [done|]. intros ->%elem_of_singleton. done.
  - intros n0 sock0. cbn. rewrite Hcl. intros Hn0.
    assert (Hcase : (extra = Some n0 ∧ sock0 = sock) ∨ clients w1 !! n0 = Some sock0).
    { destruct extra as [n|]; [|by right].
      rewrite lookup_insert in Hn0. destruct (decide (n = n0)) as [->|]; [|by right].
      left. by injection Hn0 as <-. }
    destruct Hcase as [[-> ->]|Hw1].
    + exists t'. rewrite lookup_insert_eq. split; [done|].
      intros Hl. destruct (Ht' Hl) as (_ & n & [= <-] & -> & Hne). by destruct n0.
    + assert (Hne : sock ≠ sock0) by (intros <-; by apply (Hmine n0)).
      rewrite lookup_insert_ne by done. by apply H4, Hsub.
  - intros n1 n2 sock0. cbn. rewrite Hcl. intros Hn1 Hn2.
    destruct extra as [n|]; [|by apply (H5 n1 n2 sock0); apply Hsub].
    rewrite lookup_insert in Hn1, Hn2.
    destruct (decide (n = n1)) as [->|], (decide (n1 = n2)) as [|Hdiff]; try done.
    + injection Hn1 as <-. by destruct (Hmine n2).
    + destruct (decide (n = n2)) as [->|].
      * injection Hn2 as <-. by destruct (Hmine n1).
      * by apply (H5 n1 n2 sock0); apply Hsub.
Qed.

End preservation.

Lemma sendall_then_registries {A} (sock : handle) (text : string) (k : M A) (w : world) :
  (∀ w1, registries (k w1).2 = registries w1) →
  registries ((sendall sock text ;; k) w).2 = registries w.
Proof.
  intros Hk. unfold bind. rewrite sendall_eq.
  destruct (decide _); [done|]. by rewrite Hk.
Qed.

Lemma welcome_registries (sock : handle) (w : world) :
  registries (welcome sock w).2 = registries w.
Proof.
  unfold welcome. revert w.
  do 5 (intros w; apply sendall_then_registries; clear w).
  intros w. by rewrite sendall_world.
Qed.

Lemma broadcast_registries (a c m : string) (w : world) :
  registries (broadcast_channel_message a c m w).2 = registries w.
Proof.
  rewrite broadcast_channel_message_eq. by destruct (channels w !! c).
Qed.

Lemma init_consistent : consistent init.
Proof. split; intros ?; intros; simplify_map_eq. Qed.

Lemma step_consistent (a : action) (s s' : system) :
  consistent s → step a s = Some s' → consistent s'.
Proof.
  intros Hcons Hstep.
  assert (Hown : ∀ sock nk p n, threads s !! sock = Some (Thread nk p) →
            is_live p = true → clients (shared s) !! n = Some sock → as_nick nk = Some n).
  { intros sock nk p n Ht Hl Hn. destruct (cons_owned s Hcons _ _ Hn) as (t0 & Ht0 & Hl0).
    rewrite Ht in Ht0. injection Ht0 as <-. by apply Hl0. }
  destruct a as [sock|sock ev|sock|sock]; cbn [step] in Hstep.
  - (* Accept *)
    destruct (threads s !! sock) as [?|] eqn:Hfresh; [done|].
    pose proof (welcome_registries sock (shared s)) as Hreg.
    assert (Hnone : ∀ n, clients (shared s) !! n ≠ Some sock).
    { intros n Hn. destruct (cons_owned s Hcons _ _ Hn) as (t0 & Ht0 & _). congruence. }
    destruct (welcome sock (shared s)) as [[[]|] w']; injection Hstep as <-;
      apply (consistent_same_registries s sock Hcons); try done;
      intros n Hn; by destruct (Hnone n).
  - (* Recv *)
    destruct (threads s !! sock) as [[nickname [| | |]]|] eqn:Hthread; try done.
    pose proof (receive_has_effect sock nickname ev (shared s)) as Heff.
    destruct (after_receive nickname (receive sock nickname ev (shared s)))
      as [t' w'] eqn:Hafter.
    injection Hstep as <-.
    destruct Heff as [o w1 Hreg Ho|n o w1 Hn Hfree Hreg Ho|n c o w1 Hn Hreg Ho
                     |n c m members Hn Hc Hin]; cbn [after_receive] in Hafter.
    + destruct Ho as [->|[->| ->]].
      * injection Hafter as <- <-. by apply (consistent_same_registries s sock Hcons).
      * injection Hafter as <- <-.
        apply (consistent_same_registries s sock Hcons); [done| |done|].
        -- intros _ n Hn. by apply (cons_holds s Hcons sock (Thread nickname AtRecv)).
        -- intros n Hn _. by apply (Hown sock nickname AtRecv).
      * unfold cleanup in Hafter. rewrite drop_old_eq in Hafter.
        injection Hafter as <- <-.
        apply (consistent_dropped s sock Hcons (Thread nickname AtRecv) Hthread eq_refl
                 _ _ None); [|done|done].
        rewrite <- dropped_eq. exact (dropped_registries nickname _ _ Hreg).
    + assert (Hfresh : ∀ n0, Some n = Some n0 → n0 ∉ dom (clients (shared s)))
        by by intros ? [= <-].
      destruct Ho as [->| ->]; injection Hafter as <- <-;
        apply (consistent_dropped s sock Hcons (Thread nickname AtRecv) Hthread eq_refl
                 _ _ (Some n)); try done.
      intros _. split; [done|]. by exists n.
    + destruct Ho as [->| ->]; injection Hafter as <- <-;
        apply (consistent_join s sock Hcons (Thread nickname AtRecv) Hthread eq_refl
                 _ _ n c); try done; [by right|by left].
    + injection Hafter as <- <-.
      apply (consistent_same_registries s sock Hcons); [done| | |].
      * intros _ n0 Hn0. by apply (cons_holds s Hcons sock (Thread nickname AtRecv)).
      * intros a c0 m0 [= <- <- <-]. eauto.
      * intros n0 Hn0 _. by apply (Hown sock nickname AtRecv).
  - (* Resume *)
    destruct (threads s !! sock) as [[nickname [|a c m| |]]|] eqn:Hthread; try done.
    pose proof (broadcast_registries a c m (shared s)) as Hreg.
    destruct (broadcast_channel_message a c m (shared s)) as [[[]|] w'];
      injection Hstep as <-; apply (consistent_same_registries s sock Hcons); try done.
    + intros _ n Hn.
      by apply (cons_holds s Hcons sock (Thread nickname (AtBroadcast a c m))).
    + intros n Hn _. by apply (Hown sock nickname (AtBroadcast a c m)).
  - (* Fail *)
    injection Hstep as <-. destruct Hcons as [H1 H2 H3 H4 H5]. by split.
Qed.

Lemma reachable_consistent (s : system) : reachable s → consistent s.
Proof.
  induction 1 as [|a s s' _ IH Hstep]; [apply init_consistent|].
  by apply (step_consistent a s).
Qed.

Lemma run_app (tr1 tr2 : list action) (s : system) :
  run (tr1 ++ tr2) s = s1 ← run tr1 s; run tr2 s1.
Proof.
  revert s. induction tr1 as [|a tr1 IH]; intros s; [done|].
  cbn. destruct (step a s); [apply IH|done].
Qed.

(** Every run from the empty server ends in a reachable state. *)
Lemma run_reachable (tr : list action) (s : system) :
  run tr init = Some s → reachable s.
Proof.
  revert s. induction tr as [|a tr IH] using rev_ind; intros s.
  - intros [= <-]. apply reachable_init.
  - rewrite run_app. destruct (run tr init) as [s1|] eqn:H1; [|done].
    cbn. destruct (step a s1) as [s2|] eqn:H2; [|done].
    intros [= <-]. apply (reachable_step a s1); [by apply IH|done].
Qed.

(** In a reachable state no socket is registered under two names, and a
    running thread is registered under its nickname only. *)
Lemma reachable_one_name_per_socket (s : system) :
  reachable s → one_name_per_socket (shared s).
Proof. intros Hs. by apply cons_inj, reachable_consistent. Qed.

Lemma exec_steps (sock : handle) (ev : recv_event) (s s' : system) :
  reachable s → exec sock ev s = Some s' → reachable s'.
Proof.
  intros Hs. unfold exec.
  destruct (step (Recv sock ev) s) as [s1|] eqn:H1; [|done].
  assert (reachable s1) by by apply (reachable_step (Recv sock ev) s).
  destruct (threads s1 !! sock) as [[? [| | |]]|]; try by intros [= <-].
  by apply reachable_step.
Qed.

Lemma reachable_seq_reachable (s : system) : reachable_seq s → reachable s.
Proof.
  induction 1 as [|sock s s' _ IH Hstep|sock s s' _ IH Hstep|sock ev s s' _ IH Hexec].
  - apply reachable_init.
  - by apply (reachable_step (Accept sock) s).
  - by apply (reachable_step (Fail sock) s).
  - by apply (exec_steps sock ev s).
Qed.

(** * Claims about the thread system *)

Lemma alice_in_lobby_reachable_seq : reachable_seq alice_in_lobby.
Proof.
  apply (seq_exec 1 (line "/join lobby") (default init (run (take 2 lobby_trace) init)));
    [|vm_compute; reflexivity].
  apply (seq_exec 1 (line "/nick alice") (default init (run (take 1 lobby_trace) init)));
    [|vm_compute; reflexivity].
  apply (seq_accept 1 init); [apply seq_init|vm_compute; reflexivity].
Defined.

(** C9.  In every state reached from the empty server by accepting
    connections and running whole commands one after the other (sockets may
    also break in between), each name in each channel's member set is a key
    of [clients]. *)
Theorem members_are_registered (s : system) :
  reachable_seq s →
  ∀ c members n, channels (shared s) !! c = Some members → n ∈ members →
    n ∈ dom (clients (shared s)).
Proof.
  intros Hs. apply cons_members, reachable_consistent. by apply reachable_seq_reachable.
Qed.

Lemma members_are_registered_witness :
  "alice" ∈ dom (clients (shared alice_in_lobby)).
Proof.
  apply (members_are_registered alice_in_lobby alice_in_lobby_reachable_seq
           "lobby" {["alice"]}).
  - vm_compute. reflexivity.
  - apply elem_of_singleton. reflexivity.
Defined.

(** The same holds under every interleaving of the threads. *)
Lemma members_registered_any_interleaving (s : system) :
  reachable s → members_registered (shared s).
Proof. intros Hs. by apply cons_members, reachable_consistent. Qed.

(** C7, counterexample.  Between the membership check of Alice's "/send
    lobby hi" and its delivery the thread of Bob takes the lock and changes
    the channel registry (Bob joins "lobby"); the delivery then writes to
    Bob, who was no member when the check ran. *)
Lemma join_between_check_and_delivery :
  run pending_trace init = Some send_pending
  ∧ threads send_pending !! 1 =
      Some (Thread (Some "alice") (AtBroadcast "alice" "lobby" "hi"))
  ∧ channels (shared send_pending) !! "lobby" = Some {["alice"]}
  ∧ step (Recv 2 (line "/join lobby")) send_pending = Some bob_joined
  ∧ channels (shared bob_joined) !! "lobby" = Some {["alice"; "bob"]}
  ∧ channels (shared bob_joined) ≠ channels (shared send_pending)
  ∧ step (Resume 1) bob_joined = Some delivered
  ∧ last (outbox (shared delivered)) = Some (2, channel_line "lobby" "alice" "hi").
Proof.
  repeat split; try (vm_compute; reflexivity).
  intros Heq. apply (f_equal (λ chs : gmap string (gset string), chs !! "lobby")) in Heq.
  vm_compute in Heq. discriminate Heq.
Qed.

(** C7 (as the code has it).  The membership check of [/send] and the
    broadcast are two locked blocks with the lock free in between, so steps
    of other threads can fall between them.  None of them can undo the
    check: in every reachable state a thread that waits for its broadcast
    still sends under its own nickname, is still registered under it with
    its own socket and is still a member of the channel; and the broadcast,
    when it runs, is one step that delivers to the members of that moment as
    in C2. *)
Theorem pending_sender_still_member (s : system) (sock : handle) (t : thread)
    (a c m : string) :
  reachable s →
  threads s !! sock = Some t →
  at_pc t = AtBroadcast a c m →
  as_nick (nickname t) = Some a
  ∧ clients (shared s) !! a = Some sock
  ∧ (∃ members, channels (shared s) !! c = Some members ∧ a ∈ members)
  ∧ step (Resume sock) s =
      Some (System (World (clients (shared s)) (channels (shared s))
                          (outbox (shared s) ++ deliveries (shared s) a c m)
                          (broken (shared s)))
                   (<[sock := Thread (nickname t) AtRecv]> (threads s))).
Proof.
  intros Hs Ht Hpc. pose proof (reachable_consistent s Hs) as [H1 _ H3 _ _].
  destruct (H3 _ _ _ _ _ Ht Hpc) as (Ha & members & Hc & Hin).
  split; [done|]. split; [|split; [eauto|]].
  - apply (H1 sock t a Ht); [by rewrite Hpc|done].
  - destruct t as [nk p]. cbn [at_pc] in Hpc. subst p.
    cbn [step]. rewrite Ht. by rewrite broadcast_channel_message_eq, Hc.
Qed.

Lemma send_pending_reachable : reachable send_pending.
Proof. apply (run_reachable pending_trace). vm_compute. reflexivity. Defined.

Lemma pending_sender_still_member_witness :
  clients (shared send_pending) !! "alice" = Some 1
  ∧ ∃ members, channels (shared send_pending) !! "lobby" = Some members ∧ "alice" ∈ members.
Proof.
  pose proof (pending_sender_still_member send_pending 1
                (Thread (Some "alice") (AtBroadcast "alice" "lobby" "hi"))
                "alice" "lobby" "hi" send_pending_reachable
                ltac:(vm_compute; reflexivity) eq_refl) as (_ & Hreg & Hmem & _).
  exact (conj Hreg Hmem).
Defined.

(** C5.  A thread that holds nickname [a] receives "/nick b" with [b] not
    registered.  This is one step of the system: from a state in which [a]
    is registered and [b] is not, it leads directly to a state in which [b]
    is registered for the same socket, [a] is registered no more and [a] is
    in no member set.  The system has no state in between, so another
    thread, which can only run before or after the step, sees exactly one of
    the two names registered. *)
Theorem rename_atomic (s : system) (sock : handle) (a data arg : string) :
  threads s !! sock = Some (Thread (Some a) AtRecv) →
  a ≠ "" →
  clients (shared s) !! a = Some sock →
  strip data = "/nick " +:+ arg →
  strip arg ≠ "" →
  let b := strip arg in
  b ∉ dom (clients (shared s)) →
  ∃ s', step (Recv sock (RecvText data)) s = Some s'
    ∧ clients (shared s') = <[b := sock]> (delete a (clients (shared s)))
    ∧ channels (shared s') = (λ ch : gset string, ch ∖ {[a]}) <$> channels (shared s)
    ∧ (a ∈ dom (clients (shared s)) ∧ b ∉ dom (clients (shared s)))
    ∧ ((a ∉ dom (clients (shared s'))) ∧ b ∈ dom (clients (shared s')))
    ∧ (∀ c members, channels (shared s') !! c = Some members → a ∉ members)
    ∧ (sock ∉ broken (shared s) → threads s' !! sock = Some (Thread (Some b) AtRecv)).
Proof.
  intros Ht Ha Hmine Hdata Harg b Hfree.
  assert (Hab : a ≠ b).
  { intros <-. apply Hfree. apply elem_of_dom. eauto. }
  assert (Hnick : as_nick (Some a) = Some a) by by destruct a.
  assert (Hin : a ∈ dom (clients (shared s))) by (apply elem_of_dom; eauto).
  cbn [step]. rewrite Ht.
  rewrite (receive_text _ _ _ _ Hdata) by done.
  rewrite command_nick by done. fold b.
  rewrite nick_locked_free by done.
  rewrite drop_old_eq, Hnick.
  destruct (decide (a ∈ dom (clients (shared s)))) as [_|]; [|done]. cbn [snd].
  set (w' := record_send sock (nick_set_line b)
               (set_clients <[b:=sock]> (remove_session a (shared s)))).
  assert (Hcl : clients w' = <[b := sock]> (delete a (clients (shared s)))) by done.
  assert (Hch : channels w' = (λ ch : gset string, ch ∖ {[a]}) <$> channels (shared s))
    by done.
  assert (Hres : ∀ t', ∃ s', Some (System w' (<[sock := t']> (threads s))) = Some s'
            ∧ clients (shared s') = <[b := sock]> (delete a (clients (shared s)))
            ∧ channels (shared s') = (λ ch : gset string, ch ∖ {[a]}) <$> channels (shared s)
            ∧ (a ∈ dom (clients (shared s)) ∧ b ∉ dom (clients (shared s)))
            ∧ ((a ∉ dom (clients (shared s'))) ∧ b ∈ dom (clients (shared s')))
            ∧ (∀ c members, channels (shared s') !! c = Some members → a ∉ members)
            ∧ threads s' !! sock = Some t').
  { intros t'. eexists. split; [done|]. cbn [shared threads]. rewrite Hcl, Hch.
    split; [done|]. split; [done|]. split; [done|]. split; [|split].
    - rewrite !dom_insert, dom_delete. set_solver.
    - intros c members'. rewrite lookup_fmap.
      destruct (channels (shared s) !! c) as [members|]; [|done].
      intros [= <-]. set_solver.
    - apply lookup_insert_eq. }
  destruct (decide (sock ∈ broken (shared s))) as [Hbr|Hok]; cbn [after_receive].
  - destruct (Hres (Thread (Some a) Crashed)) as (s' & -> & H1 & H2 & H3 & H4 & H5 & H6).
    exists s'. repeat (split; [done|]). intros ?; done.
  - destruct (Hres (Thread (Some b) AtRecv)) as (s' & -> & H1 & H2 & H3 & H4 & H5 & H6).
    exists s'. repeat (split; [done|]). intros ?; done.
Qed.

Lemma rename_atomic_witness :
  ∃ s', step (Recv 1 (line "/nick alicia")) alice_in_lobby = Some s'
    ∧ clients (shared s') = {["alicia" := 1]}
    ∧ channels (shared s') = {["lobby" := ∅]}.
Proof.
  destruct (rename_atomic alice_in_lobby 1 "alice" ("/nick alicia" +:+ nl) "alicia")
    as (s' & Hstep & Hcl & Hch & _).
  - vm_compute. reflexivity.
  - discriminate.
  - vm_compute. reflexivity.
  - vm_compute. reflexivity.
  - discriminate.
  - intros [x Hx]%elem_of_dom. vm_compute in Hx. discriminate Hx.
  - exists s'. split; [exact Hstep|]. split.
    + rewrite Hcl. vm_compute. reflexivity.
    + rewrite Hch. vm_compute. reflexivity.
Defined.

(** The exits the loop handles: a zero-length read, a connection reset in
    [recv], and "/quit" on a socket that still takes the reply.  The thread
    ends [Closed] and its nickname is in neither registry. *)
Lemma cleanup_on_handled_exit (s : system) (sock : handle) (nickname : option string)
    (n : string) (ev : recv_event) :
  members_registered (shared s) →
  threads s !! sock = Some (Thread nickname AtRecv) →
  as_nick nickname = Some n →
  ev = RecvText "" ∨ ev = RecvReset ∨
  ((sock ∉ broken (shared s)) ∧ ∃ data, ev = RecvText data ∧ strip data = "/quit") →
  ∃ s', step (Recv sock ev) s = Some s'
    ∧ threads s' !! sock = Some (Thread nickname Closed)
    ∧ (n ∉ dom (clients (shared s')))
    ∧ ∀ c members, channels (shared s') !! c = Some members → n ∉ members.
Proof.
  intros Hreg Ht Hn Hev. cbn [step]. rewrite Ht.
  assert (Hbreak : ∃ w1, receive sock nickname ev (shared s) = (Normal (nickname, Break), w1)
                         ∧ registries w1 = registries (shared s)).
  { destruct Hev as [->|[->|(Hok & data & -> & Hq)]]; [by eexists|by eexists|].
    rewrite (receive_text _ _ _ _ Hq) by done.
    unfold command. cbn. unfold bind. rewrite sendall_eq, decide_False by done.
    by eexists. }
  destruct Hbreak as (w1 & -> & Hw1). cbn [after_receive]. unfold cleanup.
  rewrite drop_old_eq, <- dropped_eq. eexists. split; [done|]. cbn [shared threads].
  split; [apply lookup_insert_eq|].
  pose proof (dropped_registries nickname _ _ Hw1) as [Hcl Hch]%registries_eq.
  rewrite Hcl, Hch. by apply dropped_gone.
Qed.

(** C4, at the failing inputs.  When [recv] raises an exception other than
    [ConnectionResetError], when the received bytes are not UTF-8, or when
    the reply to "/quit" raises on a broken socket, the thread ends without
    running the cleanup: the nickname stays registered and stays in its
    channels, and no other connection can claim it. *)
Theorem cleanup_skipped_on_exception :
  (∃ s, run timeout_trace init = Some s ∧ alice_leaked s)
  ∧ (∃ s, run bad_bytes_trace init = Some s ∧ alice_leaked s)
  ∧ (∃ s, run quit_broken_trace init = Some s ∧ alice_leaked s).
Proof.
  split; [|split]; eexists; (split; [vm_compute; reflexivity|]);
    repeat split; vm_compute; reflexivity.
Qed.

(** * Further facts about text *)

Section strip_facts.

Lemma is_empty_rstrip (s : string) : is_empty (rstrip s) = all_space s.
Proof.
  induction s as [|a s IH]; [done|]. cbn [rstrip all_space]. rewrite <- IH.
  by destruct (isspace a), (is_empty (rstrip s)).
Qed.

Lemma is_empty_lstrip (s : string) : is_empty (lstrip s) = all_space s.
Proof.
  induction s as [|a s IH]; [done|]. cbn [lstrip all_space].
  by destruct (isspace a).
Qed.

Lemma all_space_lstrip (s : string) : all_space (lstrip s) = all_space s.
Proof.
  induction s as [|a s IH]; [done|]. cbn [lstrip all_space].
  destruct (isspace a) eqn:Ha; [done|]. cbn [all_space]. by rewrite Ha.
Qed.

Lemma is_empty_strip (s : string) : is_empty (strip s) = all_space s.
Proof. unfold strip. by rewrite is_empty_rstrip, all_space_lstrip. Qed.

Lemma rstrip_rstrip (s : string) : rstrip (rstrip s) = rstrip s.
Proof.
  induction s as [|a s IH]; [done|]. cbn [rstrip].
  destruct (isspace a && is_empty (rstrip s)) eqn:E; [done|].
  cbn [rstrip]. by rewrite IH, E.
Qed.

Lemma rstrip_strip (s : string) : rstrip (strip s) = strip s.
Proof. apply rstrip_rstrip. Qed.

Lemma rstrip_app (p q : string) :
  rstrip (p +:+ q) = if all_space q then rstrip p else p +:+ rstrip q.
Proof.
  induction p as [|a p IH].
  - change ("" +:+ q) with q. change ("" +:+ rstrip q) with (rstrip q).
    rewrite <- is_empty_rstrip. by destruct (rstrip q).
  - change (String a p +:+ q) with (String a (p +:+ q)).
    change (String a p +:+ rstrip q) with (String a (p +:+ rstrip q)).
    cbn [rstrip]. rewrite IH. destruct (all_space q) eqn:Hq; [done|].
    assert (Hne : is_empty (p +:+ rstrip q) = false).
    { destruct p; [|done]. change ("" +:+ rstrip q) with (rstrip q).
      by rewrite is_empty_rstrip. }
    by rewrite Hne, andb_false_r.
Qed.

Lemma startswith_app (p s : string) :
  startswith p s = true → ∃ rest, s = p +:+ rest.
Proof.
  revert s. induction p as [|a p IH]; intros s; [by exists s|].
  destruct s as [|b s]; [done|]. cbn [startswith].
  intros [Hab Hp]%andb_true_iff. apply Ascii.eqb_eq in Hab as ->.
  destruct (IH s Hp) as [rest ->]. by exists rest.
Qed.

(** What follows a command word and its space in a stripped message is not
    blank. *)
Lemma stripped_argument (word data arg : string) :
  rstrip (word +:+ " ") ≠ word +:+ " " +:+ arg →
  strip data = word +:+ " " +:+ arg →
  all_space arg = false.
Proof.
  intros Hword Hdata.
  destruct (all_space arg) eqn:Harg; [|done]. exfalso. apply Hword.
  pose proof (rstrip_strip data) as Hr. rewrite Hdata in Hr. rewrite <- Hr.
  assert (Happ : word +:+ " " +:+ arg = (word +:+ " ") +:+ arg).
  { clear. induction word as [|a word IH]; [done|].
    change (String a word +:+ " " +:+ arg) with (String a (word +:+ " " +:+ arg)).
    by rewrite IH. }
  by rewrite Happ, (rstrip_app (word +:+ " ") arg), Harg.
Qed.

End strip_facts.

(** * The shape of a pass *)

Lemma partition_space_pre (s pre post : string) :
  partition_space s = Some (pre, post) →
  partition_space pre = None ∧ s = pre +:+ " " +:+ post.
Proof.
  revert pre. induction s as [|a s IH]; intros pre; [done|]. cbn [partition_space].
  destruct (Ascii.eqb a " ") eqn:Ha.
  - apply Ascii.eqb_eq in Ha as ->. by intros [= <- <-].
  - destruct (partition_space s) as [[pre' post']|]; [|done].
    intros [= <- <-]. destruct (IH pre' eq_refl) as [Hpre ->].
    split; [|done]. cbn [partition_space]. by rewrite Ha, Hpre.
Qed.

(** The parts of [message.split(" ", 2)] when there are three of them. *)
Lemma split_space_three (message x c m : string) :
  split_space 2 message = [x; c; m] →
  partition_space c = None ∧ message = x +:+ " " +:+ c +:+ " " +:+ m.
Proof.
  cbn [split_space].
  destruct (partition_space message) as [[pre post]|] eqn:H1; [|done].
  destruct (partition_space post) as [[pre' post']|] eqn:H2; [|done].
  intros [= <- <- <-].
  destruct (partition_space_pre _ _ _ H1) as [_ ->].
  destruct (partition_space_pre _ _ _ H2) as [Hc ->]. done.
Qed.

Lemma send_then_ret_shape (sock : handle) (nickname : option string)
    (text : string) (t : tail) (w : world) :
  t = Continue ∨ t = Break →
  receive_shape sock nickname w ((sendall sock text ;; ret (nickname, t)) w).
Proof.
  intros Ht. unfold bind. rewrite sendall_eq.
  destruct (decide (sock ∈ broken w)).
  - apply shape_reply. by left.
  - apply shape_reply. right. destruct Ht as [->| ->]; [by left|by right].
Qed.

Lemma receive_has_shape (sock : handle) (nickname : option string) (ev : recv_event)
    (w : world) :
  receive_shape sock nickname w (receive sock nickname ev w).
Proof.
  destruct ev as [data| | |]; cbn [receive];
    try (apply shape_silent; by eauto).
  destruct (is_empty data); [apply shape_silent; by eauto|]. cbv zeta.
  destruct (is_empty (strip data)); [apply shape_silent; by eauto|].
  generalize (strip data). intros message. unfold command.
  destruct (startswith "/nick " message).
  { destruct (split_space 1 message !! 1) as [arg|]; [|apply shape_silent; by eauto].
    cbv zeta. destruct (is_empty (strip arg)) eqn:He.
    - apply send_then_ret_shape. by left.
    - apply is_empty_false in He.
      destruct (decide (strip arg ∈ dom (clients w))) as [Hin|Hout].
      + rewrite nick_locked_taken by done.
        destruct (decide _); apply shape_reply; [by left|by right; left].
      + rewrite nick_locked_free by done. fold (dropped nickname w).
        destruct (decide _); apply shape_nick; try done; [by left|by right]. }
  destruct (startswith "/join " message).
  { destruct (split_space 1 message !! 1) as [arg|]; [|apply shape_silent; by eauto].
    cbv zeta. destruct (is_empty (strip arg)) eqn:He.
    - apply send_then_ret_shape. by left.
    - apply is_empty_false in He. destruct (as_nick nickname) as [n|] eqn:Hn.
      + unfold bind. rewrite join_locked_eq, sendall_eq.
        destruct (decide _); apply (shape_join _ _ _ n (strip arg)); try done;
          [by left|by right].
      + apply send_then_ret_shape. by left. }
  destruct (startswith "/send " message).
  { destruct (split_space 2 message) as [|x [|c [|m [|? ?]]]] eqn:Hsplit;
      try (apply send_then_ret_shape; by left).
    destruct (split_space_three _ _ _ _ Hsplit) as [Hc _].
    destruct (as_nick nickname) as [n|] eqn:Hn;
      [|apply send_then_ret_shape; by left].
    unfold bind at 1. unfold send_locked, bind at 1, get.
    destruct (channels w !! c) as [members|] eqn:Hch.
    - destruct (decide (n ∈ members)).
      + unfold ret. by apply (shape_send _ _ _ n c m members).
      + unfold bind. rewrite sendall_eq.
        destruct (decide _); apply shape_reply; [by left|by right; left].
    - unfold bind. rewrite sendall_eq.
      destruct (decide _); apply shape_reply; [by left|by right; left]. }
  destruct (startswith "/pm " message).
  { destruct (split_space 2 message) as [|x [|t [|m [|? ?]]]] eqn:Hsplit;
      try (apply send_then_ret_shape; by left).
    destruct (split_space_three _ _ _ _ Hsplit) as [Ht _].
    destruct (as_nick nickname) as [n|] eqn:Hn;
      [|apply send_then_ret_shape; by left].
    unfold bind.
    destruct (private_message n t m w) as [[[]|] w'] eqn:Hpm;
      replace w' with (private_message n t m w).2 by by rewrite Hpm.
    - apply (shape_pm _ _ _ n t m); try done. by right.
    - apply (shape_pm _ _ _ n t m); try done. by left. }
  destruct (String.eqb message "/quit").
  - apply send_then_ret_shape. by right.
  - apply send_then_ret_shape. by left.
Qed.

(** * Further properties of the session loop *)

Lemma added_record_send (sock : handle) (text : string) (w : world) :
  added w (record_send sock text w) = [(sock, text)].
Proof. unfold added. cbn. by rewrite drop_app_length. Qed.

Lemma added_same (w : world) : added w w = [].
Proof. unfold added. by rewrite drop_all. Qed.

(** X1.  A chunk that is not empty but holds only whitespace is ignored: nothing
    is sent, nothing changes, the loop goes on. *)
Theorem blank_chunk_ignored (sock : handle) (nickname : option string) (data : string)
    (w : world) :
  data ≠ "" →
  all_space data = true →
  iteration sock nickname (RecvText data) w = (Normal (nickname, true), w).
Proof.
  intros Hne Hblank. unfold iteration, bind, receive.
  apply is_empty_false in Hne. rewrite Hne. cbv zeta.
  by rewrite is_empty_strip, Hblank.
Qed.

Lemma blank_chunk_ignored_witness :
  iteration 1 (Some "alice") (RecvText ("  " +:+ nl)) lobby_world =
  (Normal (Some "alice", true), lobby_world).
Proof.
  apply blank_chunk_ignored; [discriminate|reflexivity].
Defined.

(** X2.  The reply "Nickname cannot be empty." can never be sent: a stripped
    message that starts with "/nick " always carries a name that is not
    empty after stripping, and the pass is the locked registration of that
    name. *)
Theorem nick_argument_never_empty (sock : handle) (nickname : option string)
    (data : string) (w : world) :
  startswith "/nick " (strip data) = true →
  ∃ arg, strip data = "/nick " +:+ arg ∧ strip arg ≠ "" ∧
    receive sock nickname (RecvText data) w = nick_locked sock nickname (strip arg) w.
Proof.
  intros [arg Hdata]%startswith_app. exists arg. split; [done|].
  assert (Harg : strip arg ≠ "").
  { apply is_empty_false. rewrite is_empty_strip.
    apply (stripped_argument "/nick" data arg); [|done].
    change (rstrip ("/nick" +:+ " ")) with "/nick". discriminate. }
  split; [done|].
  rewrite (receive_text _ _ _ _ Hdata) by done. by rewrite command_nick.
Qed.

Lemma nick_argument_never_empty_witness :
  ∃ arg, strip ("/nick   bob " +:+ nl) = "/nick " +:+ arg ∧ strip arg ≠ "" ∧
    receive 3 None (RecvText ("/nick   bob " +:+ nl)) lobby_world =
    nick_locked 3 None (strip arg) lobby_world.
Proof.
  apply (nick_argument_never_empty 3 None ("/nick   bob " +:+ nl) lobby_world).
  reflexivity.
Defined.

(** X3.  The reply "Channel name cannot be empty." can never be sent either: a
    stripped message that starts with "/join " carries a channel name that
    is not empty after stripping; the pass refuses a session without
    nickname and otherwise joins and confirms. *)
Theorem join_argument_never_empty (sock : handle) (nickname : option string)
    (data : string) (w : world) :
  startswith "/join " (strip data) = true →
  ∃ arg, strip data = "/join " +:+ arg ∧ strip arg ≠ "" ∧
    receive sock nickname (RecvText data) w =
    match as_nick nickname with
    | None =>
        (sendall sock ("You must set a nickname before joining channels." +:+ nl) ;;
         ret (nickname, Continue)) w
    | Some n =>
        (join_locked n (strip arg) ;; sendall sock (joined_line (strip arg)) ;;
         ret (nickname, Continue)) w
    end.
Proof.
  intros [arg Hdata]%startswith_app. exists arg. split; [done|].
  assert (Harg : strip arg ≠ "").
  { apply is_empty_false. rewrite is_empty_strip.
    apply (stripped_argument "/join" data arg); [|done].
    change (rstrip ("/join" +:+ " ")) with "/join". discriminate. }
  split; [done|].
  rewrite (receive_text _ _ _ _ Hdata) by done.
  destruct (as_nick nickname) as [n|] eqn:Hn; [by rewrite (command_join _ _ n)|].
  unfold command.
  change (startswith "/nick " ("/join " +:+ arg)) with false.
  change (startswith "/join " ("/join " +:+ arg)) with true.
  change (split_space 1 ("/join " +:+ arg) !! 1) with (Some arg).
  cbv iota beta zeta. apply is_empty_false in Harg. by rewrite Harg, Hn.
Qed.

Lemma join_argument_never_empty_witness :
  ∃ arg, strip ("/join  lobby" +:+ nl) = "/join " +:+ arg ∧ strip arg ≠ "" ∧
    receive 3 None (RecvText ("/join  lobby" +:+ nl)) lobby_world =
    (sendall 3 ("You must set a nickname before joining channels." +:+ nl) ;;
     ret (None, Continue)) lobby_world.
Proof.
  apply (join_argument_never_empty 3 None ("/join  lobby" +:+ nl) lobby_world).
  reflexivity.
Defined.

(** X4.  "/send c" without a message and "/pm t" without a message are answered
    with the usage line, whether or not the session has a nickname; nothing
    else is sent and nothing changes. *)
Theorem missing_message_is_usage (sock : handle) (nickname : option string)
    (data arg : string) (w : world) :
  partition_space arg = None →
  (strip data = "/send " +:+ arg →
   iteration sock nickname (RecvText data) w =
   (if decide (sock ∈ broken w) then Raised else Normal (nickname, true),
    record_send sock ("Usage: /send <channel> <message>" +:+ nl) w))
  ∧ (strip data = "/pm " +:+ arg →
     iteration sock nickname (RecvText data) w =
     (if decide (sock ∈ broken w) then Raised else Normal (nickname, true),
      record_send sock ("Usage: /pm <nick> <message>" +:+ nl) w)).
Proof.
  intros Harg. split; intros Hdata; apply iteration_continue;
    rewrite (receive_text _ _ _ _ Hdata) by done; unfold command.
  - change (startswith "/nick " ("/send " +:+ arg)) with false.
    change (startswith "/join " ("/send " +:+ arg)) with false.
    change (startswith "/send " ("/send " +:+ arg)) with true.
    cbv iota.
    change (split_space 2 ("/send " +:+ arg))
      with ("/send" :: match partition_space arg with
                       | Some (pre, post) => [pre; post]
                       | None => [arg]
                       end).
    rewrite Harg. unfold bind. rewrite sendall_eq. by destruct (decide _).
  - change (startswith "/nick " ("/pm " +:+ arg)) with false.
    change (startswith "/join " ("/pm " +:+ arg)) with false.
    change (startswith "/send " ("/pm " +:+ arg)) with false.
    change (startswith "/pm " ("/pm " +:+ arg)) with true.
    cbv iota.
    change (split_space 2 ("/pm " +:+ arg))
      with ("/pm" :: match partition_space arg with
                     | Some (pre, post) => [pre; post]
                     | None => [arg]
                     end).
    rewrite Harg. unfold bind. rewrite sendall_eq. by destruct (decide _).
Qed.

Lemma missing_message_is_usage_witness :
  iteration 3 None (line "/send lobby") lobby_world =
    (Normal (None, true),
     record_send 3 ("Usage: /send <channel> <message>" +:+ nl) lobby_world)
  ∧ iteration 1 (Some "alice") (line "/pm bob") lobby_world =
    (Normal (Some "alice", true),
     record_send 1 ("Usage: /pm <nick> <message>" +:+ nl) lobby_world).
Proof.
  split.
  - apply (missing_message_is_usage 3 None ("/send lobby" +:+ nl) "lobby" lobby_world);
      reflexivity.
  - apply (missing_message_is_usage 1 (Some "alice") ("/pm bob" +:+ nl) "bob" lobby_world);
      reflexivity.
Defined.

Lemma dropped_without_nick (nickname : option string) (w : world) :
  as_nick nickname = None → dropped nickname w = w.
Proof. intros Hn. by rewrite dropped_eq, Hn. Qed.

(** X5.  A session without a nickname can do one thing to the shared state:
    register a fresh name for its own socket.  Whatever it receives, the
    channel registry stays as it is, every send of the pass goes to its own
    socket, and [clients] is either unchanged or extended by one new name
    bound to that socket. *)
Theorem unauthenticated_is_harmless (sock : handle) (nickname : option string)
    (ev : recv_event) (w : world) :
  as_nick nickname = None →
  let r := iteration sock nickname ev w in
  channels r.2 = channels w
  ∧ (∀ e, e ∈ added w r.2 → e.1 = sock)
  ∧ (clients r.2 = clients w ∨
     ∃ n, n ≠ "" ∧ (n ∉ dom (clients w)) ∧ clients r.2 = <[n := sock]> (clients w)).
Proof.
  intros Hn r. unfold r. clear r.
  pose proof (receive_has_shape sock nickname ev w) as Hshape.
  assert (Hiter : (iteration sock nickname ev w).2 = (receive sock nickname ev w).2).
  { unfold iteration, bind.
    destruct (receive sock nickname ev w) as [[[nk [| |a c m]]|] w1]; try done.
    inversion Hshape; subst; try congruence;
      repeat match goal with H : _ ∨ _ |- _ => destruct H end; congruence. }
  rewrite Hiter. destruct (receive sock nickname ev w) as [o w1]. cbn [snd].
  inversion Hshape as [o' Ho|o' text Ho|n o' Hne Hfree Ho|n c o' Hn'|n c m members Hn'
                      |n t m o' Hn']; subst; try congruence.
  - rewrite added_same. split; [done|]. split; [|by left].
    intros e []%elem_of_nil.
  - rewrite added_record_send. split; [done|]. split; [|by left].
    by intros e ->%list_elem_of_singleton.
  - rewrite dropped_without_nick by done. split; [done|]. split.
    + unfold added. cbn. rewrite drop_app_length.
      by intros e ->%list_elem_of_singleton.
    + right. by exists n.
Qed.

Lemma unauthenticated_is_harmless_witness :
  let r := iteration 3 None (line "/join lobby") lobby_world in
  channels r.2 = channels lobby_world ∧ clients r.2 = clients lobby_world.
Proof.
  intros r.
  pose proof (unauthenticated_is_harmless 3 None (line "/join lobby") lobby_world eq_refl)
    as (Hch & _ & _).
  split; [exact Hch|]. vm_compute. reflexivity.
Defined.

(** X6.  The dispatch hands a broadcast to the router only under the session's
    own nickname, for a channel of which that nickname is a member and
    whose name holds no space, and it has then sent nothing and changed
    nothing itself.  So a channel whose name contains a space can be joined
    but never be sent to. *)
Theorem broadcast_request_shape (sock : handle) (nickname nickname' : option string)
    (ev : recv_event) (a c m : string) (w w' : world) :
  receive sock nickname ev w = (Normal (nickname', Broadcast a c m), w') →
  as_nick nickname = Some a ∧ nickname' = nickname ∧ w' = w
  ∧ partition_space c = None
  ∧ ∃ members, channels w !! c = Some members ∧ a ∈ members.
Proof.
  intros Hr. pose proof (receive_has_shape sock nickname ev w) as Hshape.
  rewrite Hr in Hshape.
  inversion Hshape as [o' Ho|o' text Ho|n o' Hne Hfree Ho|n c' o' Hn' Hc' Ho
                      |n c' m' members Hn' Hc' Hch Hin|n t m' o' Hn' Ht Ho]; subst;
    try (destruct Ho as [Ho|[Ho|Ho]]; discriminate Ho);
    try (destruct Ho as [Ho|Ho]; discriminate Ho).
  eauto 10.
Qed.

Lemma broadcast_request_shape_witness :
  as_nick (Some "alice") = Some "alice" ∧ partition_space "lobby" = None.
Proof.
  pose proof (broadcast_request_shape 1 (Some "alice") (Some "alice")
                (line "/send lobby hi there") "alice" "lobby" "hi there"
                lobby_world lobby_world ltac:(vm_compute; reflexivity))
    as (Hn & _ & _ & Hc & _).
  exact (conj Hn Hc).
Defined.

Lemma outbox_dropped (nickname : option string) (w : world) :
  outbox (dropped nickname w) = outbox w.
Proof.
  rewrite dropped_eq. destruct (as_nick nickname); [|done]. by destruct (decide _).
Qed.

(** X7.  [/nick] accepts a name with a space in it, but [/pm] cannot address
    it: the target of a [/pm] is the text between the first two spaces.
    Whatever another session receives, its dispatch writes nothing to the
    socket of a name that contains a space. *)
Theorem spaced_nick_gets_no_pm (w : world) (sock target : handle)
    (nickname : option string) (n : string) (ev : recv_event) :
  one_name_per_socket w →
  (∀ s, as_nick nickname = Some s → clients w !! s = Some sock) →
  clients w !! n = Some target →
  target ≠ sock →
  partition_space n ≠ None →
  ∀ text, (target, text) ∉ added w (receive sock nickname ev w).2.
Proof.
  intros Hinj Hown Hn Hdiff Hspace text.
  pose proof (receive_has_shape sock nickname ev w) as Hshape.
  destruct (receive sock nickname ev w) as [o w1]. cbn [snd].
  inversion Hshape as [o' Ho|o' text' Ho|n' o' Hne Hfree Ho|n' c o' Hn' Hc Ho
                      |n' c m members Hn' Hc Hch Hin|n' t m o' Hn' Ht Ho]; subst.
  - rewrite added_same. apply not_elem_of_nil.
  - rewrite added_record_send. intros [= -> _]%list_elem_of_singleton. done.
  - unfold added. cbn. rewrite outbox_dropped, drop_app_length.
    intros [= -> _]%list_elem_of_singleton. done.
  - unfold added. cbn. rewrite drop_app_length.
    intros [= -> _]%list_elem_of_singleton. done.
  - rewrite added_same. apply not_elem_of_nil.
  - unfold private_message, bind, get.
    destruct (clients w !! t) as [x|] eqn:Hx.
    + unfold try_pass. cbn [snd]. rewrite sendall_world, added_record_send.
      intros [= -> _]%list_elem_of_singleton.
      apply Hspace. by rewrite (Hinj _ _ _ Hn Hx).
    + rewrite (Hown n' Hn'), sendall_world, added_record_send.
      intros [= -> _]%list_elem_of_singleton. done.
Qed.

Lemma spaced_nick_gets_no_pm_witness :
  (2, private_line "alice" "b hello")
    ∉ added spaced_world (receive 1 (Some "alice") (line "/pm bob b hello") spaced_world).2.
Proof.
  apply (spaced_nick_gets_no_pm spaced_world 1 2 (Some "alice") "bob b").
  - intros n1 n2 sock0 H1 H2. unfold spaced_world in H1, H2. cbn [clients] in H1, H2.
    rewrite lookup_insert in H1, H2.
    destruct (decide ("alice" = n1)) as [<-|], (decide ("alice" = n2)) as [<-|];
      try done.
    + rewrite lookup_insert in H2. destruct (decide ("bob b" = n2)); [congruence|].
      by rewrite lookup_empty in H2.
    + rewrite lookup_insert in H1. destruct (decide ("bob b" = n1)); [congruence|].
      by rewrite lookup_empty in H1.
    + rewrite lookup_insert in H1, H2.
      destruct (decide ("bob b" = n1)) as [<-|], (decide ("bob b" = n2)) as [<-|];
        try done; by rewrite lookup_empty in *.
  - intros s [= <-]. reflexivity.
  - reflexivity.
  - discriminate.
  - discriminate.
Defined.

(** * Further properties of the thread system *)

(** X8.  Two running threads never hold the same nickname. *)
Theorem nicknames_unique (s : system) (sock1 sock2 : handle) (t1 t2 : thread)
    (n : string) :
  reachable s →
  threads s !! sock1 = Some t1 → is_live (at_pc t1) = true →
  threads s !! sock2 = Some t2 → is_live (at_pc t2) = true →
  as_nick (nickname t1) = Some n → as_nick (nickname t2) = Some n →
  sock1 = sock2.
Proof.
  intros Hs H1 Hl1 H2 Hl2 Hn1 Hn2.
  pose proof (cons_holds s (reachable_consistent s Hs)) as Hholds.
  pose proof (Hholds _ _ _ H1 Hl1 Hn1) as Ha.
  pose proof (Hholds _ _ _ H2 Hl2 Hn2) as Hb. congruence.
Qed.

(** X9.  When the broadcast of a reachable state runs, no line of it is
    addressed to the sender's own socket. *)
Theorem sender_not_served (s : system) (sock : handle) (t : thread) (a c m : string) :
  reachable s →
  threads s !! sock = Some t →
  at_pc t = AtBroadcast a c m →
  ∀ text, (sock, text) ∉ deliveries (shared s) a c m.
Proof.
  intros Hs Ht Hpc text Hin. pose proof (reachable_consistent s Hs) as [H1 _ H3 _ H5].
  destruct (H3 _ _ _ _ _ Ht Hpc) as (Ha & _).
  assert (Hl : is_live (at_pc t) = true) by by rewrite Hpc.
  pose proof (H1 _ _ _ Ht Hl Ha) as Hmine.
  apply elem_of_deliveries in Hin as (_ & n & _ & Hne & Hn).
  apply Hne. by apply (H5 n a sock).
Qed.

Lemma dom_channels_dropped (nickname : option string) (w : world) :
  dom (channels (dropped nickname w)) = dom (channels w).
Proof.
  rewrite dropped_eq. destruct (as_nick nickname) as [old|]; [|done].
  destruct (decide _); [|done]. cbn. by rewrite dom_fmap_L.
Qed.

Lemma step_channels_dom (a : action) (s s' : system) :
  step a s = Some s' → dom (channels (shared s)) ⊆ dom (channels (shared s')).
Proof.
  intros Hstep. destruct a as [sock|sock ev|sock|sock]; cbn [step] in Hstep.
  - destruct (threads s !! sock); [done|].
    pose proof (welcome_registries sock (shared s)) as [_ Hch]%registries_eq.
    destruct (welcome sock (shared s)) as [[[]|] w']; injection Hstep as <-;
      cbn in *; by rewrite Hch.
  - destruct (threads s !! sock) as [[nickname [| | |]]|]; try done.
    pose proof (receive_has_effect sock nickname ev (shared s)) as Heff.
    destruct (after_receive nickname (receive sock nickname ev (shared s)))
      as [t' w'] eqn:Hafter.
    injection Hstep as <-. cbn [shared].
    destruct Heff as [o w1 [_ Hch]%registries_eq Ho|n o w1 Hn Hfree [= _ Hch] Ho
                     |n c o w1 Hn [= _ Hch] Ho|n c m members Hn Hc Hin];
      cbn [after_receive] in Hafter.
    + destruct Ho as [->|[->| ->]]; try (injection Hafter as <- <-; by rewrite Hch).
      unfold cleanup in Hafter. rewrite drop_old_eq, <- dropped_eq in Hafter.
      injection Hafter as <- <-. by rewrite dom_channels_dropped, Hch.
    + assert (w' = w1) as -> by (destruct Ho as [->| ->]; by injection Hafter as <- <-).
      by rewrite Hch, dom_channels_dropped.
    + assert (w' = w1) as -> by (destruct Ho as [->| ->]; by injection Hafter as <- <-).
      rewrite Hch. unfold join. rewrite dom_insert_L. set_solver.
    + by injection Hafter as <- <-.
  - destruct (threads s !! sock) as [[nickname [|a c m| |]]|]; try done.
    pose proof (broadcast_registries a c m (shared s)) as [_ Hch]%registries_eq.
    destruct (broadcast_channel_message a c m (shared s)) as [[[]|] w'];
      injection Hstep as <-; cbn in *; by rewrite Hch.
  - by injection Hstep as <-.
Qed.

(** X10.  A channel, once created, exists for ever: no run of the server removes
    a key from [channels], not even when its last member leaves. *)
Theorem channels_never_deleted (tr : list action) (s s' : system) (c : string) :
  run tr s = Some s' →
  c ∈ dom (channels (shared s)) →
  c ∈ dom (channels (shared s')).
Proof.
  revert s. induction tr as [|a tr IH]; intros s; cbn [run].
  - by intros [= <-].
  - destruct (step a s) as [s1|] eqn:Hstep; [|done]. intros Hrun Hc.
    apply (IH s1 Hrun). by apply (step_channels_dom a s s1 Hstep).
Qed.

Lemma channels_never_deleted_witness :
  "lobby" ∈ dom (channels (shared
     (default init (run [Recv 1 (line "/quit")] alice_in_lobby)))).
Proof.
  apply (channels_never_deleted [Recv 1 (line "/quit")] alice_in_lobby).
  - vm_compute. reflexivity.
  - apply elem_of_dom. exists {["alice"]}. vm_compute. reflexivity.
Defined.

Lemma nicknames_unique_witness : 1 = 1.
Proof.
  apply (nicknames_unique send_pending 1 1
           (Thread (Some "alice") (AtBroadcast "alice" "lobby" "hi"))
           (Thread (Some "alice") (AtBroadcast "alice" "lobby" "hi")) "alice");
    first [exact send_pending_reachable | vm_compute; reflexivity].
Defined.

Lemma sender_not_served_witness :
  (1, channel_line "lobby" "alice" "hi") ∉ deliveries (shared bob_joined) "alice" "lobby" "hi".
Proof.
  apply (sender_not_served bob_joined 1
           (Thread (Some "alice") (AtBroadcast "alice" "lobby" "hi")) "alice" "lobby" "hi").
  - apply (reachable_step (Recv 2 (line "/join lobby")) send_pending);
      [exact send_pending_reachable|vm_compute; reflexivity].
  - vm_compute. reflexivity.
  - reflexivity.
Defined.

Lemma dropped_keeps_others (nickname : option string) (w : world) (sock0 sock : handle)
    (n : string) :
  members_registered w →
  (∀ old, as_nick nickname = Some old → clients w !! old = Some sock0) →
  sock0 ≠ sock →
  clients w !! n = Some sock →
  clients (dropped nickname w) !! n = Some sock
  ∧ ∀ c members, channels w !! c = Some members → n ∈ members →
      ∃ members', channels (dropped nickname w) !! c = Some members' ∧ n ∈ members'.
Proof.
  intros Hreg Hown Hne Hn.
  assert (Hdiff : as_nick nickname ≠ Some n).
  { intros Hold. apply Hown in Hold. congruence. }
  split.
  - by rewrite dropped_clients_lookup, decide_False.
  - intros c members Hc Hin. rewrite dropped_channels_lookup, Hc by done. cbn.
    eexists. split; [done|]. destruct (as_nick nickname) as [old|]; [|done].
    apply elem_of_difference. split; [done|]. intros ->%elem_of_singleton. done.
Qed.

Lemma other_sessions_untouched_step (s s' : system) (a : action) (sock : handle) :
  reachable s →
  step a s = Some s' →
  actor a ≠ sock →
  threads s' !! sock = threads s !! sock
  ∧ (∀ n, clients (shared s) !! n = Some sock → clients (shared s') !! n = Some sock)
  ∧ (∀ n c members, clients (shared s) !! n = Some sock →
       channels (shared s) !! c = Some members → n ∈ members →
       ∃ members', channels (shared s') !! c = Some members' ∧ n ∈ members').
Proof.
  intros Hs Hstep Hactor. pose proof (reachable_consistent s Hs) as [H1 H2 _ _ _].
  assert (Hsame : ∀ w' ths, registries w' = registries (shared s) →
            ths !! sock = threads s !! sock → s' = System w' ths →
            threads s' !! sock = threads s !! sock
            ∧ (∀ n, clients (shared s) !! n = Some sock → clients (shared s') !! n = Some sock)
            ∧ (∀ n c members, clients (shared s) !! n = Some sock →
                 channels (shared s) !! c = Some members → n ∈ members →
                 ∃ members', channels (shared s') !! c = Some members' ∧ n ∈ members')).
  { intros w' ths [Hcl Hch]%registries_eq Hths ->. cbn. rewrite Hcl, Hch.
    split; [done|]. split; [done|]. eauto. }
  destruct a as [sock0|sock0 ev|sock0|sock0]; cbn [step actor] in Hstep, Hactor.
  - destruct (threads s !! sock0); [done|].
    pose proof (welcome_registries sock0 (shared s)) as Hreg.
    destruct (welcome sock0 (shared s)) as [[[]|] w']; injection Hstep as <-;
      (eapply Hsame; [done| |done]); by rewrite lookup_insert_ne.
  - destruct (threads s !! sock0) as [[nickname [| | |]]|] eqn:Hthread; try done.
    pose proof (receive_has_effect sock0 nickname ev (shared s)) as Heff.
    destruct (after_receive nickname (receive sock0 nickname ev (shared s)))
      as [t' w'] eqn:Hafter.
    injection Hstep as <-.
    assert (Hown : ∀ old, as_nick nickname = Some old →
              clients (shared s) !! old = Some sock0).
    { intros old Hold. by apply (H1 sock0 (Thread nickname AtRecv)). }
    cbn [shared threads]. rewrite lookup_insert_ne by done. split; [done|].
    destruct Heff as [o w1 Hreg Ho|n0 o w1 Hn0 Hfree [= Hcl Hch] Ho
                     |n0 c0 o w1 Hn0 [= Hcl Hch] Ho|n0 c0 m members0 Hn0 Hc0 Hin0];
      cbn [after_receive] in Hafter.
    + assert (Hw : registries w' = registries (shared s) ∨
                   registries w' = registries (dropped nickname (shared s))).
      { destruct Ho as [->|[->| ->]]; try (injection Hafter as <- <-; by left).
        unfold cleanup in Hafter. rewrite drop_old_eq, <- dropped_eq in Hafter.
        injection Hafter as <- <-. right. by apply dropped_registries. }
      destruct Hw as [[Hcl Hch]%registries_eq|[Hcl Hch]%registries_eq];
        rewrite Hcl, Hch.
      * split; [done|]. eauto.
      * split.
        -- intros n Hn. by apply (dropped_keeps_others nickname _ sock0 sock n).
        -- intros n c members Hn. by apply (dropped_keeps_others nickname _ sock0 sock n).
    + assert (w' = w1) as -> by (destruct Ho as [->| ->]; by injection Hafter as <- <-).
      rewrite Hcl, Hch. split.
      * intros n Hn. rewrite lookup_insert_ne.
        -- by apply (dropped_keeps_others nickname _ sock0 sock n).
        -- intros <-. apply Hfree. apply elem_of_dom. eauto.
      * intros n c members Hn. by apply (dropped_keeps_others nickname _ sock0 sock n).
    + assert (w' = w1) as -> by (destruct Ho as [->| ->]; by injection Hafter as <- <-).
      rewrite Hcl, Hch. split; [done|].
      intros n c members Hn Hc Hin. unfold join. rewrite lookup_insert.
      destruct (decide (c0 = c)) as [->|]; [|eauto].
      rewrite Hc. cbn. eexists. split; [done|]. set_solver.
    + injection Hafter as <- <-. split; [done|]. eauto.
  - destruct (threads s !! sock0) as [[nickname [|a c m| |]]|]; try done.
    pose proof (broadcast_registries a c m (shared s)) as Hreg.
    destruct (broadcast_channel_message a c m (shared s)) as [[[]|] w'];
      injection Hstep as <-; (eapply Hsame; [done| |done]); by rewrite lookup_insert_ne.
  - injection Hstep as <-. cbn. split; [done|]. split; [done|]. eauto.
Qed.

Lemma dropped_adds_nothing (nickname : option string) (w : world) (n : string) :
  members_registered w →
  (∀ x, clients (dropped nickname w) !! n = Some x → clients w !! n = Some x)
  ∧ ∀ c members', channels (dropped nickname w) !! c = Some members' → n ∈ members' →
      ∃ members, channels w !! c = Some members ∧ n ∈ members.
Proof.
  intros Hreg. split.
  - intros x. rewrite dropped_clients_lookup. by destruct (decide _).
  - intros c members'. rewrite dropped_channels_lookup by done.
    destruct (channels w !! c) as [members|]; [|done]. intros [= <-] Hin.
    exists members. split; [done|]. destruct (as_nick nickname); set_solver.
Qed.

Lemma other_sessions_nothing_added (s s' : system) (a : action) (sock : handle) :
  reachable s →
  step a s = Some s' →
  actor a ≠ sock →
  (∀ n, clients (shared s') !! n = Some sock → clients (shared s) !! n = Some sock)
  ∧ (∀ n c members', clients (shared s) !! n = Some sock →
       channels (shared s') !! c = Some members' → n ∈ members' →
       ∃ members, channels (shared s) !! c = Some members ∧ n ∈ members).
Proof.
  intros Hs Hstep Hactor. pose proof (reachable_consistent s Hs) as [H1 H2 _ _ _].
  assert (Hsame : ∀ w', registries w' = registries (shared s) →
            (∀ n, clients w' !! n = Some sock → clients (shared s) !! n = Some sock)
            ∧ (∀ n c members', clients (shared s) !! n = Some sock →
                 channels w' !! c = Some members' → n ∈ members' →
                 ∃ members, channels (shared s) !! c = Some members ∧ n ∈ members)).
  { intros w' [Hcl Hch]%registries_eq. rewrite Hcl, Hch. split; [done|]. eauto. }
  assert (Hdrop : ∀ nickname w', registries w' = registries (dropped nickname (shared s)) →
            (∀ n, clients w' !! n = Some sock → clients (shared s) !! n = Some sock)
            ∧ (∀ n c members', clients (shared s) !! n = Some sock →
                 channels w' !! c = Some members' → n ∈ members' →
                 ∃ members, channels (shared s) !! c = Some members ∧ n ∈ members)).
  { intros nickname w' [Hcl Hch]%registries_eq. rewrite Hcl, Hch. split.
    - intros n. by apply (dropped_adds_nothing nickname (shared s) n).
    - intros n c members' _. by apply (dropped_adds_nothing nickname (shared s) n). }
  destruct a as [sock0|sock0 ev|sock0|sock0]; cbn [step actor] in Hstep, Hactor.
  - destruct (threads s !! sock0); [done|].
    pose proof (welcome_registries sock0 (shared s)) as Hreg.
    destruct (welcome sock0 (shared s)) as [[[]|] w']; injection Hstep as <-;
      by apply Hsame.
  - destruct (threads s !! sock0) as [[nickname [| | |]]|] eqn:Hthread; try done.
    pose proof (receive_has_effect sock0 nickname ev (shared s)) as Heff.
    destruct (after_receive nickname (receive sock0 nickname ev (shared s)))
      as [t' w'] eqn:Hafter.
    injection Hstep as <-. cbn [shared].
    assert (Hown : ∀ old, as_nick nickname = Some old →
              clients (shared s) !! old = Some sock0).
    { intros old Hold. by apply (H1 sock0 (Thread nickname AtRecv)). }
    destruct Heff as [o w1 Hreg Ho|n0 o w1 Hn0 Hfree [= Hcl Hch] Ho
                     |n0 c0 o w1 Hn0 [= Hcl Hch] Ho|n0 c0 m members0 Hn0 Hc0 Hin0];
      cbn [after_receive] in Hafter.
    + destruct Ho as [->|[->| ->]]; try (injection Hafter as <- <-; by apply Hsame).
      unfold cleanup in Hafter. rewrite drop_old_eq, <- dropped_eq in Hafter.
      injection Hafter as <- <-. apply (Hdrop nickname). by apply dropped_registries.
    + assert (w' = w1) as -> by (destruct Ho as [->| ->]; by injection Hafter as <- <-).
      rewrite Hcl, Hch. split.
      * intros n. rewrite lookup_insert.
        destruct (decide (n0 = n)) as [->|]; [by intros [= ->]|].
        by apply (dropped_adds_nothing nickname (shared s) n).
      * intros n c members' _. by apply (dropped_adds_nothing nickname (shared s) n).
    + assert (w' = w1) as -> by (destruct Ho as [->| ->]; by injection Hafter as <- <-).
      rewrite Hcl, Hch. split; [done|].
      intros n c members' Hn. unfold join. rewrite lookup_insert.
      destruct (decide (c0 = c)) as [->|]; [|eauto].
      intros [= <-] Hin.
      assert (Hdiff : n ≠ n0).
      { intros ->. pose proof (Hown n0 Hn0). congruence. }
      destruct (channels (shared s) !! c) as [members|]; cbn in Hin.
      * exists members. split; [done|]. set_solver.
      * set_solver.
    + injection Hafter as <- <-. by apply Hsame.
  - destruct (threads s !! sock0) as [[nickname [|a c m| |]]|]; try done.
    pose proof (broadcast_registries a c m (shared s)) as Hreg.
    destruct (broadcast_channel_message a c m (shared s)) as [[[]|] w'];
      injection Hstep as <-; by apply Hsame.
  - injection Hstep as <-. by apply Hsame.
Qed.

(** X11.  What a thread does, and what happens to its socket, leaves every
    other session alone: after the step the other thread's state is the
    same, the names registered to its socket are the same (none removed,
    none added), and each of these names is a member of exactly the
    channels it was a member of before, whether the step ends normally,
    closes the connection or dies with an exception. *)
Theorem other_sessions_untouched (s s' : system) (a : action) (sock : handle) :
  reachable s →
  step a s = Some s' →
  actor a ≠ sock →
  threads s' !! sock = threads s !! sock
  ∧ (∀ n, clients (shared s') !! n = Some sock ↔ clients (shared s) !! n = Some sock)
  ∧ (∀ n c, clients (shared s) !! n = Some sock →
       (∃ members', channels (shared s') !! c = Some members' ∧ n ∈ members') ↔
       (∃ members, channels (shared s) !! c = Some members ∧ n ∈ members)).
Proof.
  intros Hs Hstep Hactor.
  destruct (other_sessions_untouched_step s s' a sock Hs Hstep Hactor)
    as (Hth & Hkeep & Hin).
  destruct (other_sessions_nothing_added s s' a sock Hs Hstep Hactor) as (Hnew & Hout).
  split; [done|]. split.
  - intros n. split; [apply Hnew|apply Hkeep].
  - intros n c Hn. split.
    + intros (members' & Hc & Hmem). by apply (Hout n c members').
    + intros (members & Hc & Hmem). by apply (Hin n c members).
Qed.

Lemma other_sessions_untouched_witness :
  threads delivered !! 2 = threads bob_joined !! 2
  ∧ (clients (shared delivered) !! "bob" = Some 2 ↔
     clients (shared bob_joined) !! "bob" = Some 2).
Proof.
  assert (Hreach : reachable bob_joined).
  { apply (reachable_step (Recv 2 (line "/join lobby")) send_pending);
      [exact send_pending_reachable|vm_compute; reflexivity]. }
  destruct (other_sessions_untouched bob_joined delivered (Resume 1) 2 Hreach)
    as (Hth & Hcl & _).
  - vm_compute. reflexivity.
  - discriminate.
  - split; [exact Hth|exact (Hcl "bob")].
Defined.

Lemma dead_thread_cannot_act (s s' : system) (a : action) (sock : handle) (t : thread) :
  threads s !! sock = Some t → is_live (at_pc t) = false →
  step a s = Some s' → actor a = sock → a = Fail sock.
Proof.
  intros Ht Hdead Hstep <-. destruct a as [sock0|sock0 ev|sock0|sock0];
    cbn [step actor] in *; rewrite ?Ht in Hstep; try done;
    destruct t as [nk [| | |]]; done.
Qed.

(** X12.  A name registered to a thread that has ended stays registered to it for
    ever: no later step of any thread removes or rebinds it, so no other
    connection can ever claim that name. *)
Theorem dead_registration_is_permanent (tr : list action) (s s' : system)
    (sock : handle) (t : thread) (n : string) :
  reachable s →
  threads s !! sock = Some t →
  is_live (at_pc t) = false →
  clients (shared s) !! n = Some sock →
  run tr s = Some s' →
  clients (shared s') !! n = Some sock ∧ threads s' !! sock = Some t.
Proof.
  revert s. induction tr as [|a tr IH]; intros s Hs Ht Hdead Hn; cbn [run].
  - by intros [= <-].
  - destruct (step a s) as [s1|] eqn:Hstep; [|done]. intros Hrun.
    assert (Hs1 : reachable s1) by by apply (reachable_step a s).
    destruct (decide (actor a = sock)) as [Hact|Hact].
    + rewrite (dead_thread_cannot_act s s1 a sock t Ht Hdead Hstep Hact) in Hstep.
      injection Hstep as <-. by apply (IH _ Hs1).
    + destruct (other_sessions_untouched_step s s1 a sock Hs Hstep Hact)
        as (Hth & Hcl & _).
      apply (IH s1 Hs1); [by rewrite Hth|done|by apply Hcl|done].
Qed.

Lemma dead_registration_is_permanent_witness :
  clients (shared (default init (run timeout_trace init))) !! "alice" = Some 1.
Proof.
  refine (proj1 (dead_registration_is_permanent
                   [Accept 2; Recv 2 (line "/nick alice")] alice_crashed
                   (default init (run timeout_trace init)) 1
                   (Thread (Some "alice") Crashed) "alice" _ _ _ _ _)).
  - apply (run_reachable (take 4 timeout_trace)). vm_compute. reflexivity.
  - vm_compute. reflexivity.
  - reflexivity.
  - vm_compute. reflexivity.
  - vm_compute. reflexivity.
Defined.

(** * A whole session on its own *)

Section clean_session.

Variables (clients0 : gmap string handle) (channels0 : gmap string (gset string)).
Variable sock : handle.
Hypothesis Hbase :
  ∀ c members n, channels0 !! c = Some members → n ∈ members → n ∈ dom clients0.

(** Removing the nickname of a running thread puts both registries back. *)
Lemma dropped_restores (nk : option string) (w : world) :
  clients w = match as_nick nk with
              | Some n => <[n := sock]> clients0
              | None => clients0
              end →
  mine nk ## dom clients0 →
  (∀ c members, channels0 !! c = Some members →
     ∃ members', channels w !! c = Some members' ∧
       members ⊆ members' ∧ members' ⊆ members ∪ mine nk) →
  clients (dropped nk w) = clients0
  ∧ ∀ c members, channels0 !! c = Some members →
      channels (dropped nk w) !! c = Some members.
Proof.
  intros Hcl Hmine Hch. rewrite dropped_eq. unfold mine in *.
  destruct (as_nick nk) as [n|].
  - assert (Hfresh : n ∉ dom clients0) by set_solver.
    rewrite decide_True by (rewrite Hcl, dom_insert; set_solver).
    cbn. rewrite Hcl, delete_insert_eq, delete_id by by apply not_elem_of_dom.
    split; [done|]. intros c members Hc. rewrite lookup_fmap.
    destruct (Hch c members Hc) as (members' & -> & Hsub & Hsup).
    cbn. f_equal.
    assert (n ∉ members) by (intros ?; apply Hfresh; eauto).
    set_solver.
  - split; [done|]. intros c members Hc.
    destruct (Hch c members Hc) as (members' & -> & Hsub & Hsup).
    f_equal. set_solver.
Qed.

Lemma session_inv_recv (ev : recv_event) (s s' : system) :
  session_inv clients0 channels0 sock s →
  step (Recv sock ev) s = Some s' →
  session_inv clients0 channels0 sock s'.
Proof.
  intros (t & Ht & Hinv) Hstep. cbn [step] in Hstep. rewrite Ht in Hstep.
  destruct t as [nk [| | |]]; try done. cbn [at_pc nickname] in Hinv.
  destruct Hinv as (Hcl & Hmine & Hch).
  pose proof (receive_has_effect sock nk ev (shared s)) as Heff.
  destruct (after_receive nk (receive sock nk ev (shared s))) as [t' w'] eqn:Hafter.
  injection Hstep as <-. exists t'. cbn [threads shared].
  rewrite lookup_insert_eq. split; [done|].
  destruct (dropped_restores nk (shared s) Hcl Hmine Hch) as [Hdcl Hdch].
  destruct Heff as [o w1 [Hcl1 Hch1]%registries_eq Ho|n o w1 Hn Hfree [= Hcl1 Hch1] Ho
                   |n c o w1 Hn [= Hcl1 Hch1] Ho|n c m members Hn Hc Hin];
    cbn [after_receive] in Hafter.
  - destruct Ho as [->|[->| ->]].
    + by injection Hafter as <- <-.
    + injection Hafter as <- <-. cbn [at_pc nickname]. by rewrite Hcl1, Hch1.
    + unfold cleanup in Hafter. rewrite drop_old_eq, <- dropped_eq in Hafter.
      injection Hafter as <- <-. cbn [at_pc nickname].
      assert (Hreg : registries w1 = registries (shared s)) by by apply registries_eq.
      apply (dropped_registries nk) in Hreg. apply registries_eq in Hreg as [-> ->].
      done.
  - destruct Ho as [->| ->]; injection Hafter as <- <-; [done|]. cbn [at_pc nickname].
    assert (Hnew : as_nick (Some n) = Some n) by by destruct n.
    unfold mine. rewrite Hnew, Hcl1, Hch1, Hdcl.
    assert (Hout : n ∉ dom clients0).
    { intros Hin. apply Hfree. rewrite Hcl.
      destruct (as_nick nk); [rewrite dom_insert|]; set_solver. }
    split; [done|]. split; [set_solver|].
    intros c members Hc. rewrite (Hdch c members Hc).
    eexists. split; [done|]. set_solver.
  - destruct Ho as [->| ->]; injection Hafter as <- <-; [done|]. cbn [at_pc nickname].
    rewrite Hcl1, Hch1. split; [done|]. split; [done|].
    intros c0 members Hc0. destruct (Hch c0 members Hc0) as (members' & Hm' & Hsub & Hsup).
    unfold join. rewrite lookup_insert.
    destruct (decide (c = c0)) as [->|]; [|eauto].
    rewrite Hm'. cbn. eexists. split; [done|]. unfold mine in *. rewrite Hn in *.
    set_solver.
  - injection Hafter as <- <-. by cbn [at_pc nickname].
Qed.

Lemma session_inv_resume (s s' : system) :
  session_inv clients0 channels0 sock s →
  step (Resume sock) s = Some s' →
  session_inv clients0 channels0 sock s'.
Proof.
  intros (t & Ht & Hinv) Hstep. cbn [step] in Hstep. rewrite Ht in Hstep.
  destruct t as [nk [|a c m| |]]; try done. cbn [at_pc nickname] in Hinv.
  pose proof (broadcast_registries a c m (shared s)) as [Hcl Hch]%registries_eq.
  destruct (broadcast_channel_message a c m (shared s)) as [[[]|] w'];
    injection Hstep as <-; eexists; cbn [threads shared];
    (split; [apply lookup_insert_eq|]); [|done].
  cbn in *. by rewrite Hcl, Hch.
Qed.

Lemma session_inv_session (evs : list recv_event) (s s' : system) :
  session_inv clients0 channels0 sock s →
  session sock evs s = Some s' →
  session_inv clients0 channels0 sock s'.
Proof.
  revert s. induction evs as [|ev evs IH]; intros s Hinv; cbn [session].
  - by intros [= <-].
  - unfold exec. destruct (step (Recv sock ev) s) as [s1|] eqn:H1; [|done].
    pose proof (session_inv_recv ev s s1 Hinv H1) as Hinv1.
    destruct (threads s1 !! sock) as [[nk [|a c m| |]]|]; try by apply IH.
    destruct (step (Resume sock) s1) as [s2|] eqn:H2; [|done].
    apply IH. by apply (session_inv_resume s1 s2).
Qed.

End clean_session.

(** X13.  A connection that is accepted, runs any commands on its own and leaves
    through the cleanup gives back what it took: [clients] is exactly as it
    was when the connection was accepted, and every channel that existed
    then has exactly the member set it had. *)
Theorem clean_session_restores_registry (s s0 s' : system) (sock : handle)
    (evs : list recv_event) (t : thread) :
  reachable s →
  step (Accept sock) s = Some s0 →
  session sock evs s0 = Some s' →
  threads s' !! sock = Some t →
  at_pc t = Closed →
  clients (shared s') = clients (shared s)
  ∧ ∀ c members, channels (shared s) !! c = Some members →
      channels (shared s') !! c = Some members.
Proof.
  intros Hs Hacc Hrun Ht Hpc.
  pose proof (cons_members s (reachable_consistent s Hs)) as Hbase.
  assert (Hinv0 : session_inv (clients (shared s)) (channels (shared s)) sock s0).
  { cbn [step] in Hacc. destruct (threads s !! sock); [done|].
    pose proof (welcome_registries sock (shared s)) as [Hcl Hch]%registries_eq.
    destruct (welcome sock (shared s)) as [[[]|] w']; injection Hacc as <-;
      eexists; cbn [threads shared]; (split; [apply lookup_insert_eq|]);
      cbn [at_pc nickname]; [|done].
    cbn [snd] in Hcl, Hch. rewrite Hcl, Hch. split; [done|]. split; [by unfold mine|].
    intros c members Hc. exists members. split; [done|]. set_solver. }
  destruct (session_inv_session _ _ sock Hbase evs s0 s' Hinv0 Hrun) as (t' & Ht' & Hfin).
  rewrite Ht in Ht'. injection Ht' as <-. by rewrite Hpc in Hfin.
Qed.

Lemma clean_session_restores_registry_witness :
  clients (shared bob_gone) = clients (shared alice_in_lobby)
  ∧ channels (shared bob_gone) !! "lobby" = Some {["alice"]}.
Proof.
  destruct (clean_session_restores_registry alice_in_lobby bob_accepted bob_gone 2
              bob_session (Thread (Some "robert") Closed)) as [Hcl Hch].
  - apply (run_reachable lobby_trace). vm_compute. reflexivity.
  - vm_compute. reflexivity.
  - vm_compute. reflexivity.
  - vm_compute. reflexivity.
  - reflexivity.
  - split; [exact Hcl|]. apply Hch. vm_compute. reflexivity.
Defined.

Lemma iteration_send_refused (sock : handle) (nickname : option string)
    (n data c m : string) (w : world) :
  as_nick nickname = Some n →
  partition_space c = None →
  strip data = "/send " +:+ c +:+ " " +:+ m →
  (∀ members, channels w !! c = Some members → n ∉ members) →
  iteration sock nickname (RecvText data) w =
  (if decide (sock ∈ broken w) then Raised else Normal (nickname, true),
   record_send sock (must_join_line c) w).
Proof.
  intros Hn Hc Hdata Hout. apply iteration_continue.
  rewrite (receive_text _ _ _ _ Hdata) by done.
  rewrite (command_send _ _ _ _ _ Hn Hc).
  unfold bind at 1. unfold send_locked, bind at 1, get.
  destruct (channels w !! c) as [members|] eqn:Hch.
  - rewrite decide_False by by apply Hout.
    unfold bind. rewrite sendall_eq. by destruct (decide (sock ∈ broken w)).
  - unfold bind. rewrite sendall_eq. by destruct (decide (sock ∈ broken w)).
Qed.

(** X14.  A rename does not carry channel memberships over.  After a successful
    "/nick b" the new name is in no member set, so the next "/send c m" of
    the session is answered with the must-join line for every channel [c],
    also for the channels the session had joined under its old name. *)
Theorem rename_forgets_memberships (w : world) (sock : handle)
    (nickname : option string) (data arg data' c m : string) :
  members_registered w →
  strip data = "/nick " +:+ arg →
  strip arg ≠ "" →
  strip arg ∉ dom (clients w) →
  partition_space c = None →
  strip data' = "/send " +:+ c +:+ " " +:+ m →
  let b := strip arg in
  let w1 := (iteration sock nickname (RecvText data) w).2 in
  (∀ c' members, channels w1 !! c' = Some members → b ∉ members)
  ∧ iteration sock (Some b) (RecvText data') w1 =
    (if decide (sock ∈ broken w) then Raised else Normal (Some b, true),
     record_send sock (must_join_line c) w1).
Proof.
  intros Hreg Hdata Harg Hfree Hc Hdata' b w1.
  assert (Hw1 : w1 = record_send sock (nick_set_line b)
                       (set_clients (insert b sock) (dropped nickname w))).
  { unfold w1, iteration, bind.
    rewrite (receive_text _ _ _ _ Hdata) by done.
    rewrite command_nick by done. fold b.
    rewrite nick_locked_free by done. by destruct (decide _). }
  assert (Hnone : ∀ c' members, channels w1 !! c' = Some members → b ∉ members).
  { intros c' members'. rewrite Hw1. cbn [channels record_send set_clients].
    rewrite dropped_channels_lookup by done.
    destruct (channels w !! c') as [members|] eqn:Hc'; [|done]. intros [= <-] Hin.
    apply Hfree, (Hreg c' members).
    - done.
    - destruct (as_nick nickname); set_solver. }
  split; [done|].
  assert (Hb : as_nick (Some b) = Some b).
  { unfold as_nick, b. apply is_empty_false in Harg. by rewrite Harg. }
  rewrite (iteration_send_refused sock (Some b) b data' c m w1 Hb Hc Hdata').
  - replace (broken w1) with (broken w); [done|].
    rewrite Hw1. cbn. rewrite dropped_eq.
    destruct (as_nick nickname); [|done]. by destruct (decide _).
  - intros members Hm. by apply (Hnone c).
Qed.

Lemma rename_forgets_memberships_witness :
  let w1 := (iteration 1 (Some "alice") (line "/nick alicia") lobby_world).2 in
  iteration 1 (Some "alicia") (line "/send lobby hi") w1 =
  (Normal (Some "alicia", true), record_send 1 (must_join_line "lobby") w1).
Proof.
  intros w1.
  refine (proj2 (rename_forgets_memberships lobby_world 1 (Some "alice")
                   ("/nick alicia" +:+ nl) "alicia" ("/send lobby hi" +:+ nl) "lobby" "hi"
                   _ eq_refl _ _ eq_refl eq_refl)).
  - intros c members n. unfold lobby_world. cbn [channels clients].
    rewrite lookup_insert. destruct (decide ("lobby" = c)); [|by rewrite lookup_empty].
    intros [= <-] Hn. rewrite !dom_insert. set_solver.
  - discriminate.
  - intros [x Hx]%elem_of_dom. vm_compute in Hx. discriminate Hx.
Defined.





Lemma omap_delivery_sockets (sender_nick channel_name message : string) (w : world)
    (l : list string) :
  one_name_per_socket w →
  NoDup l →
  NoDup (omap (delivery sender_nick channel_name message w) l).*1.
Proof.
  intros Hinj. induction l as [|n l IH]; intros Hnd; [constructor|].
  apply NoDup_cons in Hnd as [Hn Hnd]. cbn [omap list_omap].
  fold (omap (delivery sender_nick channel_name message w) l).
  unfold delivery at 1. destruct (clients w !! n) as [sock|] eqn:Hsock; cbn.
  - apply NoDup_cons. split; [|by apply IH].
    intros ([sock' text] & Heq & Hin)%list_elem_of_fmap. cbn in Heq. subst sock'.
    apply list_elem_of_omap in Hin as (n' & Hn' & Hd). unfold delivery in Hd.
    destruct (clients w !! n') as [sock'|] eqn:Hsock'; [|done].
    cbn in Hd. injection Hd as -> _.
    by rewrite (Hinj n n' sock Hsock Hsock') in Hn.
  - by apply IH.
Qed.

(** X16.  One broadcast addresses no socket twice: where no socket is registered
    under two names (as in every reachable state), the sockets of the lines
    a broadcast sends are pairwise different. *)
Theorem broadcast_once_per_socket (sender_nick channel_name message : string)
    (w : world) :
  one_name_per_socket w →
  NoDup (added w (broadcast_channel_message sender_nick channel_name message w).2).*1.
Proof.
  intros Hinj. rewrite broadcast_channel_message_eq. cbn [snd].
  destruct (channels w !! channel_name) as [members|].
  - unfold added. cbn [outbox]. rewrite drop_app_length.
    apply omap_delivery_sockets; [done|].
    unfold membersExcluding. apply NoDup_filter, NoDup_elements.
  - rewrite added_same. constructor.
Qed.

Lemma broadcast_once_per_socket_witness :
  NoDup (added (shared bob_joined)
           (broadcast_channel_message "alice" "lobby" "hi" (shared bob_joined)).2).*1.
Proof.
  apply broadcast_once_per_socket.
  apply (reachable_one_name_per_socket bob_joined).
  apply (reachable_step (Recv 2 (line "/join lobby")) send_pending);
    [exact send_pending_reachable|vm_compute; reflexivity].
Defined.

(** X17.  In every reachable state the session registry is a one-to-one
    record of live connections: no socket is registered under two names,
    and every registered name maps to the socket of an accepted connection
    whose thread, as long as it runs, has exactly that name as its
    nickname. *)
Theorem registry_is_one_to_one (s : system) :
  reachable s →
  (∀ n1 n2 sock, clients (shared s) !! n1 = Some sock →
     clients (shared s) !! n2 = Some sock → n1 = n2)
  ∧ (∀ n sock, clients (shared s) !! n = Some sock →
       ∃ t, threads s !! sock = Some t ∧
            (is_live (at_pc t) = true → as_nick (nickname t) = Some n)).
Proof.
  intros Hs. pose proof (reachable_consistent s Hs) as [_ _ _ Hown Hinj]. done.
Qed.

Lemma registry_is_one_to_one_witness :
  ∃ t, threads bob_joined !! 2 = Some t ∧
       (is_live (at_pc t) = true → as_nick (nickname t) = Some "bob").
Proof.
  refine (proj2 (registry_is_one_to_one bob_joined _) "bob" 2 _).
  - apply (reachable_step (Recv 2 (line "/join lobby")) send_pending);
      [exact send_pending_reachable|vm_compute; reflexivity].
  - vm_compute. reflexivity.
Defined.

(** * "/quit" followed by more text *)

Lemma strip_quit_suffix (data extra : string) :
  lstrip data = "/quit" +:+ extra →
  strip data = if all_space extra then "/quit" else "/quit" +:+ rstrip extra.
Proof. intros Hdata. unfold strip. by rewrite Hdata, rstrip_app. Qed.

(** C10, counterexample.  The received text is "/quit" followed by the extra
    text of one space and the newline.  The message is stripped before the
    dispatch, so it equals "/quit": the server sends "Disconnecting..." and
    leaves the loop instead of answering with the unknown-command line. *)
Lemma quit_then_blank_disconnects :
  iteration 1 (Some "alice") (RecvText ("/quit" +:+ " " +:+ nl)) lobby_world =
    (Normal (Some "alice", false),
     record_send 1 ("Disconnecting..." +:+ nl) lobby_world)
  ∧ iteration 1 (Some "alice") (RecvText ("/quit" +:+ " " +:+ nl)) lobby_world ≠
    (Normal (Some "alice", true), record_send 1 unknown_line lobby_world).
Proof. split; [vm_compute; reflexivity|vm_compute; discriminate]. Qed.

(** C10 (as the code has it).  A received text that strips to the bare word
    "/nick", "/join", "/send" or "/pm" is answered with the unknown-command
    line and nothing else happens.  For a text that is "/quit" followed by
    extra text (leading whitespace aside) the extra text decides: if it
    holds a character that is not whitespace, the answer is the
    unknown-command line and the session goes on; if it is whitespace only,
    the message strips to "/quit", the server sends "Disconnecting..." and
    leaves the loop. *)
Theorem bare_command_or_quit_suffix
    (w : world) (sock : handle) (nickname : option string) (data : string) :
  (strip data = "/nick" ∨ strip data = "/join" ∨ strip data = "/send" ∨
   strip data = "/pm" →
   iteration sock nickname (RecvText data) w =
     (if decide (sock ∈ broken w) then Raised else Normal (nickname, true),
      record_send sock unknown_line w))
  ∧ (∀ extra, lstrip data = "/quit" +:+ extra →
       iteration sock nickname (RecvText data) w =
       if all_space extra then
         (if decide (sock ∈ broken w) then Raised else Normal (nickname, false),
          record_send sock ("Disconnecting..." +:+ nl) w)
       else
         (if decide (sock ∈ broken w) then Raised else Normal (nickname, true),
          record_send sock unknown_line w)).
Proof.
  split.
  - intros H. apply iteration_continue.
    destruct H as [H|[H|[H|H]]];
      rewrite (receive_text _ _ _ _ H) by done;
      apply command_unknown; reflexivity.
  - intros extra Hdata. pose proof (strip_quit_suffix data extra Hdata) as Hstrip.
    destruct (all_space extra) eqn:Hextra.
    + unfold iteration, bind. rewrite (receive_text _ _ _ _ Hstrip) by done.
      unfold command. cbn. unfold bind. rewrite sendall_eq.
      by destruct (decide (sock ∈ broken w)).
    + apply iteration_continue. rewrite (receive_text _ _ _ _ Hstrip) by done.
      apply command_unknown; try reflexivity. apply eqb_quit_extra.
      apply is_empty_false. by rewrite is_empty_rstrip.
Qed.

Lemma bare_command_or_quit_suffix_witness :
  let w := World ∅ ∅ [] ∅ in
  iteration 1 None (line "/nick") w = (Normal (None, true), record_send 1 unknown_line w)
  ∧ iteration 1 None (line "/quit now") w =
      (Normal (None, true), record_send 1 unknown_line w)
  ∧ iteration 1 None (RecvText ("/quit" +:+ " " +:+ nl)) w =
      (Normal (None, false), record_send 1 ("Disconnecting..." +:+ nl) w).
Proof.
  intros w.
  destruct (bare_command_or_quit_suffix w 1 None ("/nick" +:+ nl)) as [Hbare _].
  destruct (bare_command_or_quit_suffix w 1 None ("/quit now" +:+ nl)) as [_ Hnow].
  destruct (bare_command_or_quit_suffix w 1 None ("/quit" +:+ " " +:+ nl)) as [_ Hblank].
  split; [|split].
  - apply Hbare. left. reflexivity.
  - exact (Hnow (" now" +:+ nl) eq_refl).
  - exact (Hblank (" " +:+ nl) eq_refl).
Defined.
